(** * A Redis-cluster feature store: shallow embedding of [rediscluster/redis.go]

    The development follows the Go file top-down: the Go values it handles
  (errors, versioned items, kinds, options), the standard-library helpers
  it calls on strings, a model of the Redis commands it issues, and then
  the store methods themselves ([GetInternal], [GetAllInternal],
  [InitInternal], [UpsertInternal], [InitializedInternal],
  [IsStoreAvailable]).  The theorems come last. *)

From Stdlib Require Import ZArith Ascii String List Bool Lia.
From stdpp Require Import gmap strings list fin_maps.

Local Open Scope string_scope.
Local Open Scope Z_scope.

(** ** Go strings: the helpers of package [strings] used by the store *)

Module strings.

(** [strings.HasPrefix s p]. *)
Fixpoint HasPrefix (s p : string) {struct p} : bool :=
  match p, s with
  | EmptyString, _ => true
  | String _ _, EmptyString => false
  | String a p', String b s' => Ascii.eqb a b && HasPrefix s' p'
  end.

(** [strings.Contains s substr]. *)
Fixpoint Contains (s substr : string) : bool :=
  HasPrefix s substr ||
  match s with
  | EmptyString => false
  | String _ s' => Contains s' substr
  end.

(** The left-to-right scan shared by [strings.Count] and
    [strings.Replace]: [skip] is the number of bytes of the match in
    progress that remain to be stepped over, so that matches never
    overlap. *)
Fixpoint replace_scan (old new : string) (skip : nat) (s : string) : string :=
  match s with
  | EmptyString => EmptyString
  | String c s' =>
      match skip with
      | S k => replace_scan old new k s'
      | O =>
          if HasPrefix s old
          then new +:+ replace_scan old new (Nat.pred (String.length old)) s'
          else String c (replace_scan old new O s')
      end
  end.

Fixpoint count_scan (old : string) (skip : nat) (s : string) : nat :=
  match s with
  | EmptyString => O
  | String c s' =>
      match skip with
      | S k => count_scan old k s'
      | O =>
          if HasPrefix s old
          then S (count_scan old (Nat.pred (String.length old)) s')
          else count_scan old O s'
      end
  end.

(** [strings.Count s old] for a non-empty [old]. *)
Definition Count (s old : string) : nat := count_scan old O s.

(** [strings.Replace s old new (-1)]: every non-overlapping occurrence of
    [old], found from the left, is replaced.  Go returns [s] itself when
    [old == new]; the empty pattern (which Go treats specially by
    matching between runes) is only modelled for that case. *)
Definition Replace (s old new : string) : string :=
  if String.eqb old new then s
  else match old with
       | EmptyString => s
       | String _ _ => replace_scan old new O s
       end.

End strings.

(** ** Key naming *)

Definition DefaultPrefix : string := "launchdarkly".
Definition initedKey_const : string := "$inited".
Definition hashtag : string := "{ld}".

Definition hashTagKey (key : string) : string :=
  key +:+ "." +:+ hashtag.

Definition removeHashTagKey (key : string) : string :=
  strings.Replace key ("." +:+ hashtag) "".

(** ** Go values *)

(** The [error] values the store distinguishes.  [redis_Nil] is the
    client's [r.Nil]; every other error produced by the client (a failed
    round-trip, an error reply such as WRONGTYPE) is a [redis_error]. *)
Inductive error : Type :=
| redis_Nil
| redis_error (msg : string)
| json_error (msg : string)
| fmt_Errorf (msg : string).

(** [ld.VersionedData]: the interface is [GetKey], [GetVersion],
    [IsDeleted]; the rest of the item is opaque to the store. *)
Record VersionedData : Type := mkItem {
  GetKey : string;
  GetVersion : Z;
  IsDeleted : bool;
  payload : string
}.

(** [ld.VersionedDataKind]: [GetNamespace], and [String] for messages. *)
Record VersionedDataKind : Type := mkKind {
  GetNamespace : string;
  KindString : string
}.

(** Serialization is done by [json.Marshal] and [utils.UnmarshalItem],
    neither of which is among the sources: they are parameters, of which
    the store only uses the signatures. *)
Class Codec : Type := {
  json_Marshal : VersionedData -> string + error;
  UnmarshalItem : VersionedDataKind -> string -> VersionedData + error
}.

Definition error_message (e : error) : string :=
  match e with
  | redis_Nil => "redis: nil"
  | redis_error msg => msg
  | json_error msg => msg
  | fmt_Errorf msg => msg
  end.

(** [%s] applied to an [error] that may be nil. *)
Definition fmt_error (e : option error) : string :=
  match e with
  | Some e => error_message e
  | None => "%!s(<nil>)"
  end.

(** ** Options *)

(** [time.Duration] is a count of nanoseconds. *)
Definition Second : Z := 1000000000.
Definition DefaultCacheTTL : Z := 15 * Second.

Record redisFeatureStoreOptions : Type := mkOptions {
  prefix : string;
  addr : string;
  password : string;
  cacheTTL : Z
}.

Inductive FeatureStoreOption : Type :=
| prefixOption (p : string)
| addrPassOption (a pw : string)
| cacheTTLOption (ttl : Z)
| loggerOption.

Definition apply (o : FeatureStoreOption) (opts : redisFeatureStoreOptions)
  : redisFeatureStoreOptions * option error :=
  match o with
  | prefixOption p =>
      if String.eqb p ""
      then (mkOptions DefaultPrefix (addr opts) (password opts) (cacheTTL opts), None)
      else (mkOptions p (addr opts) (password opts) (cacheTTL opts), None)
  | addrPassOption a pw => (mkOptions (prefix opts) a pw (cacheTTL opts), None)
  | cacheTTLOption ttl => (mkOptions (prefix opts) (addr opts) (password opts) ttl, None)
  | loggerOption => (opts, None)
  end.

Definition Prefix (p : string) : FeatureStoreOption := prefixOption p.
Definition AddrPassword (a pw : string) : FeatureStoreOption := addrPassOption a pw.
Definition CacheTTL (ttl : Z) : FeatureStoreOption := cacheTTLOption ttl.

Fixpoint validateOptions_loop (options : list FeatureStoreOption)
    (ret : redisFeatureStoreOptions) : redisFeatureStoreOptions * option error :=
  match options with
  | [] => (ret, None)
  | o :: rest =>
      match apply o ret with
      | (ret', Some err) => (ret', Some err)
      | (ret', None) => validateOptions_loop rest ret'
      end
  end.

Definition validateOptions (options : list FeatureStoreOption)
  : redisFeatureStoreOptions * option error :=
  validateOptions_loop options (mkOptions DefaultPrefix "" "" DefaultCacheTTL).

(** Of the fields of the Go struct only [options] varies here: [pool] is
    the cluster client, whose server is the [World] below (the store is
    taken as constructed, with a client in place), and [loggers] has no
    effect on results. *)
Record redisFeatureStoreCore : Type := mkCore {
  options : redisFeatureStoreOptions
}.

Definition newRedisFeatureStoreInternal (configuredOptions : redisFeatureStoreOptions)
  : redisFeatureStoreCore :=
  mkCore configuredOptions.

Definition GetCacheTTL (store : redisFeatureStoreCore) : Z :=
  cacheTTL (options store).

Definition featuresKey (store : redisFeatureStoreCore) (kind : VersionedDataKind) : string :=
  prefix (options store) +:+ ":" +:+ GetNamespace kind +:+ "." +:+ hashtag.

Definition initedKey (store : redisFeatureStoreCore) : string :=
  prefix (options store) +:+ ":" +:+ initedKey_const +:+ "." +:+ hashtag.

(** ** The Redis server

    A database maps a key to a string or to a hash.  The store writes with
    DEL, HSET and SET, and reads with HGET, HGETALL and EXISTS; writes are
    only ever sent inside a pipeline. *)

Inductive rvalue : Type :=
| RString (s : string)
| RHash (h : gmap string string).

Inductive write : Type :=
| DEL (k : string)
| HSET (k f v : string)
| SET (k v : string).

Inductive command : Type :=
| HGET (k f : string)
| HGETALL (k : string)
| EXISTS (k : string)
| WATCH (k : string)
| PIPELINE (ws : list write)
| MULTI_EXEC (ws : list write).

Definition write_key (c : write) : string :=
  match c with
  | DEL k => k
  | HSET k _ _ => k
  | SET k _ => k
  end.

Definition WRONGTYPE : string :=
  "WRONGTYPE Operation against a key holding the wrong kind of value".

(** One write applied to the database: the error reply, if any, and whether
    the server counts the key as modified (which is what WATCH observes). *)
Definition apply_write (c : write) (d : gmap string rvalue)
  : gmap string rvalue * option string * bool :=
  match c with
  | DEL k =>
      match d !! k with
      | Some _ => (delete k d, None, true)
      | None => (d, None, false)
      end
  | HSET k f v =>
      match d !! k with
      | None => (<[k := RHash {[f := v]}]> d, None, true)
      | Some (RHash h) => (<[k := RHash (<[f := v]> h)]> d, None, true)
      | Some (RString _) => (d, Some WRONGTYPE, false)
      end
  | SET k v => (<[k := RString v]> d, None, true)
  end.

(** A sequence of writes executed in order, as a pipeline or the body of a
    transaction.  An error reply does not stop the commands after it.  The
    result is the database, the first error reply, and the keys modified. *)
Fixpoint apply_writes (cs : list write) (d : gmap string rvalue)
  : gmap string rvalue * option string * list string :=
  match cs with
  | [] => (d, None, [])
  | c :: rest =>
      let '(d1, e1, m1) := apply_write c d in
      let '(d2, e2, m2) := apply_writes rest d1 in
      (d2,
       match e1 with Some _ => e1 | None => e2 end,
       if m1 then write_key c :: m2 else m2)
  end.

(** What lies outside this process at one round-trip: the writes other
    clients get executed before our command, and whether the round-trip
    itself fails (the command then does not reach the server). *)
Record Env : Type := mkEnv {
  others : list write;
  fault : option string
}.

Definition quiet : Env := mkEnv [] None.

(** The world as seen from one store: the database, the key the open
    transaction watches and whether it has been modified since, the
    commands this store has sent (latest first), and what the environment
    will do at the round-trips to come (nothing, once the list is used up). *)
Record World : Type := mkWorld {
  db : gmap string rvalue;
  watched : option string;
  dirty : bool;
  sent : list command;
  pending : list Env
}.

Definition touches (k : option string) (modified : list string) : bool :=
  match k with
  | Some k => existsb (String.eqb k) modified
  | None => false
  end.

(** ** A state monad for the methods of the store *)

Definition M (A : Type) : Type := World -> A * World.

Definition ret {A : Type} (a : A) : M A := fun w => (a, w).

Definition bind {A B : Type} (m : M A) (k : A -> M B) : M B :=
  fun w => let (a, w') := m w in k a w'.

Declare Scope store_scope.
Delimit Scope store_scope with store.
Notation "x <- m ;; k" := (bind m (fun x => k))
  (at level 100, m at next level, right associativity) : store_scope.
Local Open Scope store_scope.

(** One round-trip to the server: the other clients' writes land first, the
    command is recorded, and the fault (if any) is handed to the caller. *)
Definition round_trip (c : command) : M (option string) :=
  fun w =>
    let e := hd quiet (pending w) in
    let '(d, _, modified) := apply_writes (others e) (db w) in
    (fault e,
     mkWorld d (watched w) (dirty w || touches (watched w) modified)
             (c :: sent w) (tl (pending w))).

Definition get_db : M (gmap string rvalue) := fun w => (db w, w).

Definition put_db (d : gmap string rvalue) : M unit :=
  fun w => (tt, mkWorld d (watched w) (dirty w) (sent w) (pending w)).

Definition set_watch (k : option string) : M unit :=
  fun w => (tt, mkWorld (db w) k false (sent w) (pending w)).

Definition is_dirty : M bool := fun w => (dirty w, w).

(** ** The client: the commands of [r.ClusterClient] the store calls

    Each returns what the Go method's [Result()] returns: the value (the
    zero value when there is an error) and the error. *)

Definition HGet (k f : string) : M (string * option error) :=
  flt <- round_trip (HGET k f) ;;
  match flt with
  | Some msg => ret ("", Some (redis_error msg))
  | None =>
      d <- get_db ;;
      match d !! k with
      | None => ret ("", Some redis_Nil)
      | Some (RHash h) =>
          match h !! f with
          | Some v => ret (v, None)
          | None => ret ("", Some redis_Nil)
          end
      | Some (RString _) => ret ("", Some (redis_error WRONGTYPE))
      end
  end.

Definition HGetAll (k : string) : M (gmap string string * option error) :=
  flt <- round_trip (HGETALL k) ;;
  match flt with
  | Some msg => ret (∅, Some (redis_error msg))
  | None =>
      d <- get_db ;;
      match d !! k with
      | None => ret (∅, None)
      | Some (RHash h) => ret (h, None)
      | Some (RString _) => ret (∅, Some (redis_error WRONGTYPE))
      end
  end.

Definition Exists (k : string) : M (Z * option error) :=
  flt <- round_trip (EXISTS k) ;;
  match flt with
  | Some msg => ret (0, Some (redis_error msg))
  | None =>
      d <- get_db ;;
      match d !! k with
      | Some _ => ret (1, None)
      | None => ret (0, None)
      end
  end.

(** A pipeline only queues: [pipe.Del], [pipe.HSet] and [pipe.Set] append
    to the queue and report no error. *)
Definition Pipeline_queue (pipe : list write) (c : write) : list write * option error :=
  ((pipe ++ [c])%list, None).

(** [Exec] of a pipeline obtained from the cluster client: one round-trip
    carrying all queued commands; the error is that of the round-trip or
    the first error reply. *)
Definition Pipeline_Exec (pipe : list write) : M (option unit * option error) :=
  flt <- round_trip (PIPELINE pipe) ;;
  match flt with
  | Some msg => ret (None, Some (redis_error msg))
  | None =>
      d <- get_db ;;
      let '(d', e, _) := apply_writes pipe d in
      _ <- put_db d' ;;
      match e with
      | Some msg => ret (Some tt, Some (redis_error msg))
      | None => ret (Some tt, None)
      end
  end.

(** The client's [TxFailedErr], the error of a transaction that the server
    did not run. *)
Definition TxFailedErr : error := redis_error "redis: transaction failed".

(** [Exec] of a pipeline obtained from a [Tx]: the queue is sent as
    MULTI ... EXEC.  The server runs it only if the watched key has not
    been modified since WATCH, and forgets the watch either way.  [Exec]
    returns the list of queued commands together with the error, also when
    the round-trip fails and when the transaction is aborted, which it
    reports as [TxFailedErr].  The caller keeps the list in a variable of
    type [interface{}], which is then never nil: the first component is
    [Some tt] in every case. *)
Definition Tx_Pipeline_Exec (pipe : list write) : M (option unit * option error) :=
  flt <- round_trip (MULTI_EXEC pipe) ;;
  match flt with
  | Some msg => ret (Some tt, Some (redis_error msg))
  | None =>
      aborted <- is_dirty ;;
      _ <- set_watch None ;;
      if aborted then ret (Some tt, Some TxFailedErr)
      else
        d <- get_db ;;
        let '(d', e, _) := apply_writes pipe d in
        _ <- put_db d' ;;
        match e with
        | Some msg => ret (Some tt, Some (redis_error msg))
        | None => ret (Some tt, None)
        end
  end.

(** [c.Watch(fn, key)]: WATCH, then [fn]; the transaction's connection is
    released when [fn] returns, which drops the watch.  [fn] is a closure:
    [S] is the type of the variables it captures. *)
Definition Watch {S : Type} (fn : S -> M (S * option error)) (key : string) (vars : S)
  : M (S * option error) :=
  flt <- round_trip (WATCH key) ;;
  match flt with
  | Some msg => ret (vars, Some (redis_error msg))
  | None =>
      _ <- set_watch (Some key) ;;
      r <- fn vars ;;
      _ <- set_watch None ;;
      ret r
  end.

(** ** The store: [redisFeatureStoreCore] *)

Section Store.

Context {codec : Codec}.

Definition GetInternal (store : redisFeatureStoreCore) (kind : VersionedDataKind)
    (key : string) : M (option VersionedData * option error) :=
  r <- HGet (featuresKey store kind) (hashTagKey key) ;;
  let (jsonStr, err) := r in
  match err with
  | Some redis_Nil => ret (None, None)
  | Some err => ret (None, Some err)
  | None =>
      match UnmarshalItem kind jsonStr with
      | inr jsonErr =>
          ret (None,
               Some (fmt_Errorf ("failed to unmarshal " +:+ KindString kind +:+ " key "
                                 +:+ key +:+ ": " +:+ error_message jsonErr)))
      | inl item => ret (Some item, None)
      end
  end.

(** The body of [for k, v := range values] in [GetAllInternal], over the
    entries in the order the loop visits them.  (The message formats [err],
    the error of HGETALL, as the source does.) *)
Fixpoint GetAllInternal_range (kind : VersionedDataKind) (err : option error)
    (values : list (string * string)) (results : gmap string VersionedData)
  : option (gmap string VersionedData) * option error :=
  match values with
  | [] => (Some results, None)
  | (k, v) :: rest =>
      match UnmarshalItem kind v with
      | inr jsonErr =>
          (None, Some (fmt_Errorf ("failed to unmarshal " +:+ KindString kind +:+ ": "
                                   +:+ fmt_error err)))
      | inl item =>
          GetAllInternal_range kind err rest (<[removeHashTagKey k := item]> results)
      end
  end.

Definition GetAllInternal (store : redisFeatureStoreCore) (kind : VersionedDataKind)
  : M (option (gmap string VersionedData) * option error) :=
  r <- HGetAll (featuresKey store kind) ;;
  let (values, err) := r in
  match err with
  | Some redis_Nil => ret (GetAllInternal_range kind err (map_to_list values) ∅)
  | Some e => ret (None, Some e)
  | None => ret (GetAllInternal_range kind err (map_to_list values) ∅)
  end.

(** The inner loop of [InitInternal]: [for k, v := range items]. *)
Fixpoint InitInternal_items (kind : VersionedDataKind) (baseKey : string)
    (items : list (string * VersionedData)) (pipe : list write)
  : list write * option error :=
  match items with
  | [] => (pipe, None)
  | (k, v) :: rest =>
      match json_Marshal v with
      | inr jsonErr =>
          (pipe,
           Some (fmt_Errorf ("failed to marshal " +:+ KindString kind +:+ " key "
                             +:+ k +:+ ": " +:+ error_message jsonErr)))
      | inl data =>
          InitInternal_items kind baseKey rest
            (fst (Pipeline_queue pipe (HSET baseKey (hashTagKey k) data)))
      end
  end.

(** The outer loop: [for kind, items := range allData]. *)
Fixpoint InitInternal_kinds (store : redisFeatureStoreCore)
    (allData : list (VersionedDataKind * list (string * VersionedData)))
    (pipe : list write) : list write * option error :=
  match allData with
  | [] => (pipe, None)
  | (kind, items) :: rest =>
      let baseKey := featuresKey store kind in
      let pipe := fst (Pipeline_queue pipe (DEL baseKey)) in
      match InitInternal_items kind baseKey items pipe with
      | (pipe, Some err) => (pipe, Some err)
      | (pipe, None) => InitInternal_kinds store rest pipe
      end
  end.

(** [allData] and each collection in it are Go maps; they are given here as
    the sequence of entries in the order the [range] loops visit them. *)
Definition InitInternal (store : redisFeatureStoreCore)
    (allData : list (VersionedDataKind * list (string * VersionedData)))
  : M (option error) :=
  match InitInternal_kinds store allData [] with
  | (_, Some err) => ret (Some err)
  | (pipe, None) =>
      let pipe := fst (Pipeline_queue pipe (SET (initedKey store) "")) in
      r <- Pipeline_Exec pipe ;;
      ret (snd r)
  end.

(** The variables of [UpsertInternal] that its closure assigns. *)
Record upsert_vars : Type := mkVars {
  item : option VersionedData;
  shouldContinueExecution : bool
}.

Definition is_stale (oldItem : option VersionedData) (newItem : VersionedData) : bool :=
  match oldItem with
  | Some old => GetVersion old >=? GetVersion newItem
  | None => false
  end.

(** The function passed to [c.Watch]. *)
Definition UpsertInternal_tx (store : redisFeatureStoreCore) (kind : VersionedDataKind)
    (newItem : VersionedData) (vars : upsert_vars) : M (upsert_vars * option error) :=
  let baseKey := featuresKey store kind in
  let key := GetKey newItem in
  r <- GetInternal store kind key ;;
  let (oldItem, err) := r in
  match err with
  | Some err => ret (vars, Some err)
  | None =>
      if is_stale oldItem newItem
      then ret (mkVars oldItem (shouldContinueExecution vars), None)
      else
        match json_Marshal newItem with
        | inr jsonErr =>
            ret (vars,
                 Some (fmt_Errorf ("failed to marshal " +:+ KindString kind +:+ " key "
                                   +:+ key +:+ ": " +:+ error_message jsonErr)))
        | inl data =>
            let (pipe, err) := Pipeline_queue [] (HSET baseKey (hashTagKey key) data) in
            match err with
            | None =>
                r <- Tx_Pipeline_Exec pipe ;;
                let (result, err) := r in
                match err, result with
                | None, None => ret (mkVars (item vars) true, None)
                | _, _ => ret (mkVars (Some newItem) (shouldContinueExecution vars), None)
                end
            | Some err => ret (vars, Some err)
            end
        end
  end.

(** The [for] loop of [UpsertInternal].  [fuel] bounds the number of
    iterations the model runs; [None] means the loop is still running when
    the fuel is spent. *)
Fixpoint UpsertInternal_loop (fuel : nat) (store : redisFeatureStoreCore)
    (kind : VersionedDataKind) (newItem : VersionedData)
    (item0 : option VersionedData)
  : M (option (option VersionedData * option error)) :=
  match fuel with
  | O => ret None
  | S fuel' =>
      r <- Watch (UpsertInternal_tx store kind newItem) (featuresKey store kind)
                 (mkVars item0 false) ;;
      let (vars, err) := r in
      match err with
      | Some err => ret (Some (None, Some err))
      | None =>
          if negb (shouldContinueExecution vars)
          then ret (Some (item vars, None))
          else UpsertInternal_loop fuel' store kind newItem (item vars)
      end
  end.

Definition UpsertInternal (fuel : nat) (store : redisFeatureStoreCore)
    (kind : VersionedDataKind) (newItem : VersionedData)
  : M (option (option VersionedData * option error)) :=
  UpsertInternal_loop fuel store kind newItem None.

Definition InitializedInternal (store : redisFeatureStoreCore) : M bool :=
  r <- Exists (initedKey store) ;;
  ret (fst r =? 1).

Definition IsStoreAvailable (store : redisFeatureStoreCore) : M bool :=
  r <- Exists (initedKey store) ;;
  ret (match snd r with None => true | Some _ => false end).

End Store.

(** ** The caching wrapper

    [NewRedisFeatureStoreFactory] puts [utils.FeatureStoreWrapper] in front
    of the core.  The clock is an argument, [now], of every operation. *)

(** Modelled from the spec: the entries of the cache of
    [utils.FeatureStoreWrapper], which is not among the sources.  A
    CacheEntry is a value with its expiry. *)
Record CacheEntry (A : Type) : Type := mkEntry {
  value : A;
  expiry : Z
}.
Arguments mkEntry {A} _ _.
Arguments value {A} _.
Arguments expiry {A} _.

(** Modelled from the spec: the state of [utils.FeatureStoreWrapper], which
    is not among the sources.  Entries are keyed by (kind, key) for single
    items and by kind for "all items of kind", with a singleton for the
    initialized marker. *)
Record FeatureStoreWrapper : Type := mkWrapper {
  core : redisFeatureStoreCore;
  itemCache : gmap (string * string) (CacheEntry (option VersionedData));
  allCache : gmap string (CacheEntry (gmap string VersionedData));
  initedCache : option (CacheEntry bool)
}.


(** Modelled from the spec: the TTL policy of the missing wrapper.  An entry
    is served while it has not expired; with a negative TTL it never
    expires. *)
Definition live {A : Type} (ttl now : Z) (e : CacheEntry A) : bool :=
  (ttl <? 0) || (now <? expiry e).

(** Modelled from the spec: a cache hit of the missing wrapper is an entry
    that is present and live. *)
Definition cache_lookup {A : Type} (ttl now : Z) (e : option (CacheEntry A)) : option A :=
  match e with
  | Some e => if live ttl now e then Some (value e) else None
  | None => None
  end.

Section Wrapper.

Context {codec : Codec}.



(** Modelled from the spec: [Initialized] of the missing wrapper,
    read-through on the entry of the marker. *)
Definition Wrapper_Initialized (now : Z) (wr : FeatureStoreWrapper)
  : M (bool * FeatureStoreWrapper) :=
  let ttl := GetCacheTTL (core wr) in
  if ttl =? 0
  then r <- InitializedInternal (core wr) ;; ret (r, wr)
  else
    match cache_lookup ttl now (initedCache wr) with
    | Some b => ret (b, wr)
    | None =>
        r <- InitializedInternal (core wr) ;;
        ret (r, mkWrapper (core wr) (itemCache wr) (allCache wr)
                  (Some (mkEntry r (now + ttl))))
    end.


(** Modelled from the spec: [Init] of the missing wrapper.  It replaces the
    backend contents, then clears the entire cache and marks the cached
    initialized state true; a backend error leaves the cache as it was. *)
Definition Wrapper_Init (now : Z)
    (allData : list (VersionedDataKind * list (string * VersionedData)))
    (wr : FeatureStoreWrapper) : M (option error * FeatureStoreWrapper) :=
  let ttl := GetCacheTTL (core wr) in
  err <- InitInternal (core wr) allData ;;
  match err with
  | Some _ => ret (err, wr)
  | None =>
      if ttl =? 0 then ret (err, wr)
      else ret (err, mkWrapper (core wr) ∅ ∅ (Some (mkEntry true (now + ttl))))
  end.

(** Modelled from the spec: [IsAvailable] of the missing wrapper; health
    checks bypass the cache. *)
Definition Wrapper_IsAvailable (wr : FeatureStoreWrapper) : M bool :=
  IsStoreAvailable (core wr).

End Wrapper.

(** ** A small codec to run the store on concrete data

    The serialized form is one byte for the version, one for the deleted
    flag, then the key.  Versions outside a byte cannot be encoded, and
    fewer than two bytes cannot be decoded. *)

Definition byte_Marshal (v : VersionedData) : string + error :=
  if (0 <=? GetVersion v) && (GetVersion v <? 256)
  then inl (String (ascii_of_N (Z.to_N (GetVersion v)))
              (String (if IsDeleted v then "1"%char else "0"%char) (GetKey v)))
  else inr (json_error "json: unsupported value").

Definition byte_Unmarshal (kind : VersionedDataKind) (s : string) : VersionedData + error :=
  match s with
  | String a (String d key) =>
      inl (mkItem key (Z.of_N (N_of_ascii a)) (Ascii.eqb d "1"%char) "")
  | _ => inr (json_error "unexpected end of JSON input")
  end.

Definition byte_codec : Codec :=
  {| json_Marshal := byte_Marshal; UnmarshalItem := byte_Unmarshal |}.

Definition features : VersionedDataKind := mkKind "features" "features".
Definition segments : VersionedDataKind := mkKind "segments" "segments".

Definition default_store : redisFeatureStoreCore :=
  newRedisFeatureStoreInternal (fst (validateOptions [])).

Definition empty_world : World := mkWorld ∅ None false [] [].

(** ** Concrete data *)

Definition flagA (version : Z) : VersionedData := mkItem "flagA" version false "".
Definition flagB (version : Z) : VersionedData := mkItem "flagB" version false "".

(** The serialized form of an item under [byte_codec] ([""] if it has none). *)
Definition bytes_of (v : VersionedData) : string :=
  match byte_Marshal v with
  | inl data => data
  | inr _ => ""
  end.

(** A database in which the features collection holds [flagA] at version
    [version], and nothing else. *)
Definition stored_world (version : Z) : World :=
  mkWorld {[ featuresKey default_store features
             := RHash {[ hashTagKey "flagA" := bytes_of (flagA version) ]} ]}
          None false [] [].

(** An empty database whose third round-trip fails. *)
Definition exec_fails_world : World :=
  mkWorld ∅ None false []
          [quiet; quiet; mkEnv [] (Some "read tcp 10.0.0.7:6379: connection reset by peer")].

(** An empty database in which another client stores [flagB] in the
    features collection between our read and our EXEC. *)
Definition other_writer (version : Z) : Env :=
  mkEnv [HSET (featuresKey default_store features) (hashTagKey "flagB")
              (bytes_of (flagB version))] None.

Definition contended_world : World :=
  mkWorld ∅ None false []
          [quiet; quiet; other_writer 1].


Definition two_collections : list (VersionedDataKind * list (string * VersionedData)) :=
  [(features, [("flagA", flagA 2); ("flagB", flagB 1)]); (segments, [])].

(** A database holding only the marker, behind a connection that is down. *)
Definition unreachable_world : World :=
  mkWorld {[ initedKey default_store := RString "" ]} None false []
          [mkEnv [] (Some "dial tcp 10.0.0.7:6379: i/o timeout")].

(** [two_collections] as another visiting order would list it. *)
Definition two_collections_reordered
  : list (VersionedDataKind * list (string * VersionedData)) :=
  [(segments, []); (features, [("flagB", flagB 1); ("flagA", flagA 2)])].

(** The world after [two_collections] has been written over [stored_world 7]. *)
Definition initialized_world : World :=
  snd (@InitInternal byte_codec default_store two_collections (stored_world 7)).

(** ** Vocabulary for the statements *)

(** The suffix that [hashTagKey] appends. *)
Definition tag : string := "." +:+ hashtag.

(** The number of positions of [s] at which [substr] occurs, overlapping
    or not. *)
Fixpoint occurrences (s substr : string) : nat :=
  ((if strings.HasPrefix s substr then 1 else 0) +
   match s with
   | EmptyString => 0
   | String _ s' => occurrences s' substr
   end)%nat.

(** The tag starts at none of the first [n] positions of [s]. *)
Fixpoint no_tag_within (n : nat) (s : string) : Prop :=
  match n, s with
  | S k, String _ s' => strings.HasPrefix s tag = false /\ no_tag_within k s'
  | _, _ => True
  end.

(** The environment of the next round-trip, and the database the next
    command will meet: the current one after the other clients' writes
    scheduled before it. *)
Definition next_env (w : World) : Env := hd quiet (pending w).

Definition writes_db (cs : list write) (d : gmap string rvalue) : gmap string rvalue :=
  fst (fst (apply_writes cs d)).

Definition next_db (w : World) : gmap string rvalue :=
  writes_db (others (next_env w)) (db w).

(** The value of a field of the hash stored at a key, if both exist. *)
Definition hash_field (d : gmap string rvalue) (k f : string) : option string :=
  match d !! k with
  | Some (RHash h) => h !! f
  | _ => None
  end.

(** The key holds no string: it is absent or a hash. *)
Definition not_a_string (d : gmap string rvalue) (k : string) : bool :=
  match d !! k with
  | Some (RString _) => false
  | _ => true
  end.

Definition key_exists (d : gmap string rvalue) (k : string) : bool :=
  match d !! k with
  | Some _ => true
  | None => false
  end.

(** The keys the other clients modify before the next command, and the
    world in which a command [c] sent now is answered. *)
Definition next_modified (w : World) : list string :=
  snd (apply_writes (others (next_env w)) (db w)).

Definition arrive (c : command) (w : World) : World :=
  mkWorld (next_db w) (watched w) (dirty w || touches (watched w) (next_modified w))
          (c :: sent w) (tl (pending w)).

Definition is_nil {A : Type} (o : option A) : bool :=
  match o with
  | None => true
  | Some _ => false
  end.

(** The worlds one iteration of [UpsertInternal] goes through: the closure
    starts in [read_world], where the WATCH has been answered; its HGET is
    answered and the transaction is sent in [exec_world]; [released] is the
    world once [Watch] has returned. *)
Definition watching (k : string) (w : World) : World :=
  mkWorld (db w) (Some k) false (sent w) (pending w).

Definition released (w : World) : World :=
  mkWorld (db w) None false (sent w) (pending w).

Definition read_world (store : redisFeatureStoreCore) (kind : VersionedDataKind)
    (w : World) : World :=
  watching (featuresKey store kind) (arrive (WATCH (featuresKey store kind)) w).

Definition exec_world (store : redisFeatureStoreCore) (kind : VersionedDataKind)
    (key : string) (w : World) : World :=
  arrive (HGET (featuresKey store kind) (hashTagKey key)) (read_world store kind w).

Definition staged (store : redisFeatureStoreCore) (kind : VersionedDataKind)
    (key data : string) : list write :=
  [HSET (featuresKey store kind) (hashTagKey key) data].

(** The world after an iteration whose transaction the server answered
    without running it. *)
Definition abandoned (store : redisFeatureStoreCore) (kind : VersionedDataKind)
    (key data : string) (w : World) : World :=
  released (arrive (MULTI_EXEC (staged store kind key data)) (exec_world store kind key w)).

(** Another client modified the collection key after the WATCH, before the
    read or before the EXEC. *)
Definition modified_since_watch (store : redisFeatureStoreCore)
    (kind : VersionedDataKind) (key : string) (w : World) : bool :=
  touches (Some (featuresKey store kind)) (next_modified (read_world store kind w))
  || touches (Some (featuresKey store kind)) (next_modified (exec_world store kind key w)).

Definition writes_err (cs : list write) (d : gmap string rvalue) : option string :=
  snd (fst (apply_writes cs d)).

Section Queues.

Context {codec : Codec}.

(** Every item of the collections serializes. *)
Definition serializable
    (allData : list (VersionedDataKind * list (string * VersionedData))) : bool :=
  forallb (fun ki => forallb (fun kv => is_nil (match json_Marshal (snd kv) with
                                                | inl _ => None
                                                | inr e => Some e
                                                end)) (snd ki)) allData.

(** The commands [InitInternal] queues for the items of one collection, for
    one collection, and in all. *)
Fixpoint item_writes (baseKey : string) (items : list (string * VersionedData))
  : list write :=
  match items with
  | [] => []
  | (k, v) :: rest =>
      match json_Marshal v with
      | inl data => HSET baseKey (hashTagKey k) data :: item_writes baseKey rest
      | inr _ => item_writes baseKey rest
      end
  end.

Definition kind_writes (store : redisFeatureStoreCore)
    (ki : VersionedDataKind * list (string * VersionedData)) : list write :=
  DEL (featuresKey store (fst ki)) :: item_writes (featuresKey store (fst ki)) (snd ki).

Definition init_writes (store : redisFeatureStoreCore)
    (allData : list (VersionedDataKind * list (string * VersionedData))) : list write :=
  (flat_map (kind_writes store) allData ++ [SET (initedKey store) ""])%list.

(** The serialized item a collection supplies for a field of the hash (the
    entry visited last, should a field be supplied twice). *)
Fixpoint fields_of (items : list (string * VersionedData)) (f : string) : option string :=
  match items with
  | [] => None
  | (k, v) :: rest =>
      match fields_of rest f with
      | Some data => Some data
      | None =>
          if String.eqb (hashTagKey k) f
          then match json_Marshal v with
               | inl data => Some data
               | inr _ => None
               end
          else None
      end
  end.

End Queues.

(** The other clients never write to key [k] in what is to come. *)
Definition undisturbed (k : string) (w : World) : Prop :=
  Forall (fun e => Forall (fun c => write_key c <> k) (others e)) (pending w).


Section Operations.

Context {codec : Codec}.





End Operations.

(** Stores configured with a given cache TTL, behind the caching wrapper. *)
Definition store_with_ttl (ttl : Z) : redisFeatureStoreCore :=
  newRedisFeatureStoreInternal (fst (validateOptions [CacheTTL ttl])).



Section Rounds.

Context {codec : Codec}.

(** An iteration of [UpsertInternal] that gets as far as sending the
    transaction: WATCH and HGET go through, the read shows no item of an
    equal or higher version, and the new item serializes to [data]. *)
Record reaches_exec (store : redisFeatureStoreCore) (kind : VersionedDataKind)
    (newItem : VersionedData) (data : string) (w : World) : Prop := mkReaches {
  watch_ok : fault (next_env w) = None;
  read_ok : fault (next_env (read_world store kind w)) = None;
  read_fresh : exists oldItem,
      fst (GetInternal store kind (GetKey newItem) (read_world store kind w))
      = (oldItem, None) /\
      is_stale oldItem newItem = false;
  marshal_ok : json_Marshal newItem = inl data
}.

(** A conflicting iteration: the transaction reaches the server, which
    finds the watched collection key modified since the WATCH. *)
Record conflict_round (store : redisFeatureStoreCore) (kind : VersionedDataKind)
    (newItem : VersionedData) (data : string) (w : World) : Prop := mkConflict {
  conflict_reaches : reaches_exec store kind newItem data w;
  exec_ok : fault (next_env (exec_world store kind (GetKey newItem) w)) = None;
  conflict_modified : modified_since_watch store kind (GetKey newItem) w = true
}.

End Rounds.

(** Between [w] and [w'] the database has been written by the other
    clients only: [w'] is [w] after the writes the environment had
    scheduled for some number of round-trips, and nothing else. *)
Definition only_others_wrote (w w' : World) : Prop :=
  exists n : nat,
    pending w' = drop n (pending w) /\
    db w' = writes_db (flat_map others (take n (pending w))) (db w).

(** The result of [UpsertInternal] is well-formed for [newItem]: an error
    comes with a nil item, and a nil error with an item whose version is
    not below the new item's. *)
Definition upsert_result_ok (newItem : VersionedData)
    (r : option VersionedData * option error) : Prop :=
  match r with
  | (Some v, None) => GetVersion v >= GetVersion newItem
  | (None, Some _) => True
  | _ => False
  end.

Section Collections.

Context {codec : Codec}.

(** The hash a collection key holds after the HSETs queued for [items],
    starting from [h] ([None]: the key is absent). *)
Fixpoint after_hsets (items : list (string * VersionedData))
    (h : option (gmap string string)) : option (gmap string string) :=
  match items with
  | [] => h
  | (k, v) :: rest =>
      match json_Marshal v with
      | inl data => after_hsets rest (Some (<[hashTagKey k := data]> (default ∅ h)))
      | inr _ => after_hsets rest h
      end
  end.

End Collections.

(** The database after one HSET. *)
Definition hset (k f v : string) (d : gmap string rvalue) : gmap string rvalue :=
  fst (fst (apply_write (HSET k f v) d)).

Section Freshness.

Context {codec : Codec}.

(** What is stored under a field, if anything, decodes to an item of a
    version below [version]. *)
Definition older_or_absent (kind : VersionedDataKind) (version : Z)
    (stored : option string) : Prop :=
  match stored with
  | None => True
  | Some data => exists old, UnmarshalItem kind data = inl old /\ GetVersion old < version
  end.

End Freshness.

(** The Go map that a sequence of visited entries lists: kinds by
    namespace, items by key.  The listing is faithful when no namespace
    and, within a collection, no key comes twice (they are keys of Go
    maps), and no namespace is the marker's name. *)
Definition data_view (allData : list (VersionedDataKind * list (string * VersionedData)))
  : gmap string (gmap string VersionedData) :=
  list_to_map ((fun ki => (GetNamespace (fst ki), list_to_map (snd ki))) <$> allData).

Definition faithful_listing
    (allData : list (VersionedDataKind * list (string * VersionedData))) : Prop :=
  NoDup ((fun ki => GetNamespace (fst ki)) <$> allData) /\
  Forall (fun ki => GetNamespace (fst ki) <> "$inited") allData /\
  Forall (fun ki => NoDup ((snd ki).*1)) allData.

(** * Properties *)

(** ** Key naming: [hashTagKey] and [removeHashTagKey] *)

Example hashTagKey_flag : hashTagKey "flagA" = "flagA.{ld}".
Proof. reflexivity. Qed.

Example removeHashTagKey_flag : removeHashTagKey "flagA.{ld}" = "flagA".
Proof. reflexivity. Qed.

Example removeHashTagKey_inner : removeHashTagKey (hashTagKey "a.{ld}b") = "ab".
Proof. reflexivity. Qed.

Example occurrences_tag : occurrences "a.{ld}b.{ld}" ".{ld}" = 2%nat.
Proof. reflexivity. Qed.

Example removeHashTagKey_single_pass :
  removeHashTagKey (hashTagKey ".{l.{ld}d}") = ".{ld}".
Proof. reflexivity. Qed.

Lemma append_String (c : ascii) (s t : string) :
  String c s +:+ t = String c (s +:+ t).
Proof. reflexivity. Qed.

Lemma append_empty (t : string) : "" +:+ t = t.
Proof. reflexivity. Qed.

Lemma length_append (s t : string) :
  String.length (s +:+ t) = (String.length s + String.length t)%nat.
Proof. induction s as [|c s IH]; [reflexivity |]. rewrite append_String. simpl. lia. Qed.

Lemma append_inj_r (s1 s2 t : string) : s1 +:+ t = s2 +:+ t -> s1 = s2.
Proof.
  revert s2. induction s1 as [|c s1 IH]; intros [|c' s2] Heq.
  - reflexivity.
  - apply (f_equal String.length) in Heq.
    rewrite append_String, append_empty in Heq. simpl in Heq.
    rewrite length_append in Heq. lia.
  - apply (f_equal String.length) in Heq.
    rewrite append_String, append_empty in Heq. simpl in Heq.
    rewrite length_append in Heq. lia.
  - rewrite !append_String in Heq. injection Heq as -> Heq. f_equal. auto.
Qed.

(** Decide the byte comparisons of a goal one at a time: a comparison with
    an unknown byte is split, one between known bytes is evaluated. *)
Ltac case_eqb :=
  repeat match goal with
         | |- context [Ascii.eqb ?a ?b] =>
             first [ is_var b; destruct (Ascii.eqb_spec a b); [subst b |]
                   | let v := eval vm_compute in (Ascii.eqb a b) in
                     change (Ascii.eqb a b) with v ];
             cbn [andb]
         end.

(** No proper suffix of the tag is a prefix of it, so a match of the tag in
    [key ++ tag] that starts inside a non-empty [key] lies inside [key]. *)
Lemma HasPrefix_tag_app (key : string) :
  key <> "" ->
  strings.HasPrefix (key +:+ tag) tag = strings.HasPrefix key tag.
Proof.
  intros Hne.
  destruct key as [|c1 [|c2 [|c3 [|c4 [|c5 k]]]]]; [congruence | ..];
    change tag with ".{ld}"; rewrite ?append_String, ?append_empty;
    cbn [strings.HasPrefix]; case_eqb; reflexivity.
Qed.

Lemma HasPrefix_tag_length (s : string) :
  strings.HasPrefix s tag = true -> (5 <= String.length s)%nat.
Proof.
  destruct s as [|c1 [|c2 [|c3 [|c4 [|c5 k]]]]];
    change tag with ".{ld}"; cbn [strings.HasPrefix];
    case_eqb; try discriminate; intros _; simpl; lia.
Qed.

Lemma replace_scan_tag_app (key : string) :
  forall skip : nat,
    (skip <= String.length key)%nat ->
    strings.replace_scan tag "" skip (key +:+ tag) = strings.replace_scan tag "" skip key.
Proof.
  induction key as [|c k IH]; intros skip Hskip.
  - simpl in Hskip. assert (skip = O) by lia. subst. reflexivity.
  - destruct skip as [|j].
    + change (String c k +:+ tag) with (String c (k +:+ tag)).
      cbn [strings.replace_scan].
      change (String c (k +:+ tag)) with (String c k +:+ tag).
      rewrite HasPrefix_tag_app by discriminate.
      destruct (strings.HasPrefix (String c k) tag) eqn:Hp.
      * apply HasPrefix_tag_length in Hp. simpl in Hp.
        f_equal. apply IH. simpl. lia.
      * f_equal. apply IH. lia.
    + simpl. apply IH. simpl in Hskip. lia.
Qed.

Lemma removeHashTagKey_scan (s : string) :
  removeHashTagKey s = strings.replace_scan tag "" O s.
Proof. reflexivity. Qed.

Lemma removeHashTagKey_hashTagKey (key : string) :
  removeHashTagKey (hashTagKey key) = removeHashTagKey key.
Proof.
  rewrite !removeHashTagKey_scan.
  change (hashTagKey key) with (key +:+ tag).
  apply replace_scan_tag_app. lia.
Qed.

Lemma replace_scan_no_tag (s : string) :
  strings.Contains s tag = false -> strings.replace_scan tag "" O s = s.
Proof.
  induction s as [|c s IH]; intros Hc; [reflexivity |].
  cbn [strings.Contains] in Hc. apply orb_false_iff in Hc as [Hp Hc].
  cbn [strings.replace_scan]. rewrite Hp. f_equal. auto.
Qed.

(** Removing the tag never lengthens a string: every match takes five
    bytes away. *)
Lemma replace_scan_length (s : string) :
  forall skip : nat,
    (String.length (strings.replace_scan tag "" skip s)
     + 5 * strings.count_scan tag skip s + Nat.min skip (String.length s)
     = String.length s)%nat.
Proof.
  induction s as [|c s IH]; intros skip.
  - simpl. lia.
  - destruct skip as [|j].
    + cbn [strings.replace_scan strings.count_scan].
      destruct (strings.HasPrefix (String c s) tag) eqn:Hp.
      * apply HasPrefix_tag_length in Hp. simpl in Hp.
        change (Nat.pred (String.length tag)) with 4%nat.
        specialize (IH 4%nat). rewrite append_empty.
        cbn [String.length]. lia.
      * specialize (IH O). cbn [String.length]. lia.
    + specialize (IH j). cbn [strings.replace_scan strings.count_scan String.length].
      lia.
Qed.

Lemma count_scan_contains (s : string) :
  strings.Contains s tag = true -> (1 <= strings.count_scan tag O s)%nat.
Proof.
  induction s as [|c s IH]; intros Hc.
  - discriminate.
  - cbn [strings.Contains] in Hc. cbn [strings.count_scan].
    destruct (strings.HasPrefix (String c s) tag); [lia |].
    simpl in Hc. auto.
Qed.

(** Occurrences of the tag cannot overlap: after one of them the tag does
    not start again within the next four bytes.  So the scan, which skips
    them, misses none. *)
Lemma HasPrefix_tag_no_overlap (c : ascii) (s : string) :
  strings.HasPrefix (String c s) tag = true -> no_tag_within 4 s.
Proof.
  destruct s as [|c1 [|c2 [|c3 [|c4 k]]]];
    change tag with ".{ld}"; cbn [strings.HasPrefix no_tag_within];
    case_eqb; try discriminate; intros _;
    change tag with ".{ld}"; cbn [strings.HasPrefix]; case_eqb; repeat split.
Qed.

Lemma count_scan_occurrences (s : string) :
  forall skip : nat,
    no_tag_within skip s -> strings.count_scan tag skip s = occurrences s tag.
Proof.
  induction s as [|c s IH]; intros skip Hskip.
  - destruct skip; reflexivity.
  - destruct skip as [|k].
    + cbn [strings.count_scan occurrences].
      destruct (strings.HasPrefix (String c s) tag) eqn:Hp.
      * change (Nat.pred (String.length tag)) with 4%nat.
        rewrite IH; [reflexivity | by apply (HasPrefix_tag_no_overlap c)].
      * by rewrite IH.
    + destruct Hskip as [Hp Hk]. cbn [strings.count_scan occurrences].
      rewrite Hp. by rewrite IH.
Qed.

Lemma removeHashTagKey_untagged (key : string) :
  strings.Contains key tag = false -> removeHashTagKey (hashTagKey key) = key.
Proof.
  intros Hc. rewrite removeHashTagKey_hashTagKey, removeHashTagKey_scan.
  by apply replace_scan_no_tag.
Qed.

Lemma removeHashTagKey_tagged (key : string) :
  strings.Contains key tag = true ->
  (String.length (removeHashTagKey (hashTagKey key)) + 5 * occurrences key tag
   = String.length key)%nat /\
  (1 <= occurrences key tag)%nat.
Proof.
  intros Hc. rewrite removeHashTagKey_hashTagKey, removeHashTagKey_scan.
  pose proof (replace_scan_length key O) as Hlen.
  pose proof (count_scan_contains key Hc) as Hcount.
  rewrite Nat.min_0_l, Nat.add_0_r in Hlen.
  rewrite (count_scan_occurrences key O I) in Hlen, Hcount. by split.
Qed.

Lemma hashTagKey_inj (k1 k2 : string) : hashTagKey k1 = hashTagKey k2 -> k1 = k2.
Proof. apply append_inj_r. Qed.

(** ** The client *)

Lemma round_trip_arrive (c : command) (w : World) :
  round_trip c w = (fault (next_env w), arrive c w).
Proof.
  unfold round_trip, arrive, next_db, next_modified, writes_db, next_env.
  destruct (apply_writes _ _) as [[d e] m]. reflexivity.
Qed.

Lemma HGet_arrive (k f : string) (w : World) :
  HGet k f w =
  (match fault (next_env w) with
   | Some msg => ("", Some (redis_error msg))
   | None =>
       match next_db w !! k with
       | None => ("", Some redis_Nil)
       | Some (RHash h) =>
           match h !! f with
           | Some v => (v, None)
           | None => ("", Some redis_Nil)
           end
       | Some (RString _) => ("", Some (redis_error WRONGTYPE))
       end
   end, arrive (HGET k f) w).
Proof.
  unfold HGet, bind. rewrite round_trip_arrive.
  destruct (fault (next_env w)); [reflexivity |].
  unfold get_db. cbn [db arrive].
  destruct (next_db w !! k) as [[s | h] |]; try reflexivity.
  destruct (h !! f); reflexivity.
Qed.

Lemma Exists_arrive (k : string) (w : World) :
  Exists k w =
  (match fault (next_env w) with
   | Some msg => (0, Some (redis_error msg))
   | None => (if key_exists (next_db w) k then 1 else 0, None)
   end, arrive (EXISTS k) w).
Proof.
  unfold Exists, bind. rewrite round_trip_arrive.
  destruct (fault (next_env w)); [reflexivity |].
  unfold get_db, key_exists. cbn [db arrive].
  destruct (next_db w !! k); reflexivity.
Qed.

Section StoreProperties.

Context {codec : Codec}.

(** ** [IsStoreAvailable] and [InitializedInternal] *)


(** C10. [InitializedInternal] discards the error of the existence check:
    when the check fails the answer is [false], and the answer is [true]
    only when the check succeeds and finds the marker key. *)
Theorem InitializedInternal_discards_error (store : redisFeatureStoreCore) (w : World) :
  fst (InitializedInternal store w) =
  match fault (next_env w) with
  | Some _ => false
  | None => key_exists (next_db w) (initedKey store)
  end.
Proof.
  unfold InitializedInternal, bind. rewrite Exists_arrive.
  destruct (fault (next_env w)); [reflexivity |].
  destruct (key_exists _ _); reflexivity.
Qed.

(** ** [GetInternal] *)

Lemma GetInternal_arrive (store : redisFeatureStoreCore) (kind : VersionedDataKind)
    (key : string) (w : World) :
  snd (GetInternal store kind key w)
  = arrive (HGET (featuresKey store kind) (hashTagKey key)) w.
Proof.
  unfold GetInternal, bind. rewrite HGet_arrive.
  destruct (fault (next_env w)); [reflexivity |].
  destruct (next_db w !! _) as [[s | h] |]; try reflexivity.
  destruct (h !! _); [| reflexivity].
  destruct (UnmarshalItem _ _); reflexivity.
Qed.

(** C9. When the collection of the kind is absent, or is a hash without
    the field of the key, [GetInternal] returns a nil item and a nil
    error.  A failure of the backend is told apart from that, being
    returned as a non-nil error: the client's error when the round-trip
    fails, the server's when the collection key holds a string. *)
Theorem GetInternal_missing_is_not_an_error (store : redisFeatureStoreCore)
    (kind : VersionedDataKind) (key : string) (w : World) :
  (fault (next_env w) = None ->
   not_a_string (next_db w) (featuresKey store kind) = true ->
   hash_field (next_db w) (featuresKey store kind) (hashTagKey key) = None ->
   fst (GetInternal store kind key w) = (None, None)) /\
  (forall msg, fault (next_env w) = Some msg ->
   fst (GetInternal store kind key w) = (None, Some (redis_error msg))) /\
  (fault (next_env w) = None ->
   not_a_string (next_db w) (featuresKey store kind) = false ->
   fst (GetInternal store kind key w) = (None, Some (redis_error WRONGTYPE))).
Proof.
  unfold GetInternal, bind. rewrite HGet_arrive.
  unfold not_a_string, hash_field. repeat split.
  - intros -> Hns Hf.
    destruct (next_db w !! _) as [[s | h] |]; try discriminate; [| reflexivity].
    rewrite Hf. reflexivity.
  - intros msg ->. reflexivity.
  - intros -> Hs.
    destruct (next_db w !! _) as [[s | h] |]; try discriminate. reflexivity.
Qed.

(** ** [UpsertInternal] *)

Lemma Watch_run {S : Type} (fn : S -> M (S * option error)) (key : string)
    (vars : S) (w : World) :
  Watch fn key vars w =
  match fault (next_env w) with
  | Some msg => ((vars, Some (redis_error msg)), arrive (WATCH key) w)
  | None =>
      let (r, w') := fn vars (watching key (arrive (WATCH key) w)) in
      (r, released w')
  end.
Proof.
  unfold Watch, bind. rewrite round_trip_arrive.
  destruct (fault (next_env w)); [reflexivity |].
  unfold set_watch, ret. cbn -[arrive].
  fold (watching key (arrive (WATCH key) w)).
  destruct (fn vars _) as [r w']. reflexivity.
Qed.

Lemma GetInternal_split (store : redisFeatureStoreCore) (kind : VersionedDataKind)
    (key : string) (w : World) :
  GetInternal store kind key w
  = (fst (GetInternal store kind key w),
     arrive (HGET (featuresKey store kind) (hashTagKey key)) w).
Proof. rewrite <- GetInternal_arrive. apply surjective_pairing. Qed.

Lemma GetInternal_found (store : redisFeatureStoreCore) (kind : VersionedDataKind)
    (key data : string) (old : VersionedData) (w : World) :
  fault (next_env w) = None ->
  hash_field (next_db w) (featuresKey store kind) (hashTagKey key) = Some data ->
  UnmarshalItem kind data = inl old ->
  fst (GetInternal store kind key w) = (Some old, None).
Proof.
  intros Hf Hs Hu. unfold GetInternal, bind. rewrite HGet_arrive, Hf.
  unfold hash_field in Hs.
  destruct (next_db w !! _) as [[s | h] |]; try discriminate.
  rewrite Hs. cbn. rewrite Hu. reflexivity.
Qed.

(** One iteration in which the read finds an item at least as recent. *)
Lemma UpsertInternal_tx_stale (store : redisFeatureStoreCore) (kind : VersionedDataKind)
    (newItem old : VersionedData) (vars : upsert_vars) (w : World) :
  fst (GetInternal store kind (GetKey newItem) w) = (Some old, None) ->
  GetVersion newItem <= GetVersion old ->
  UpsertInternal_tx store kind newItem vars w
  = ((mkVars (Some old) (shouldContinueExecution vars), None),
     arrive (HGET (featuresKey store kind) (hashTagKey (GetKey newItem))) w).
Proof.
  intros Hget Hver. unfold UpsertInternal_tx, bind.
  rewrite GetInternal_split, Hget. cbn [is_stale].
  rewrite Z.geb_leb. apply Z.leb_le in Hver. rewrite Hver. reflexivity.
Qed.

(** C1. When the read inside the transaction finds a stored item for the
    key whose version is greater than or equal to the new item's, the
    first iteration of [UpsertInternal] already returns: the stored item,
    with a nil error.  Only WATCH and HGET have been sent, so the database
    is what the other clients made of it and the stored field is as it was
    read. *)
Theorem UpsertInternal_stale_write_dropped (store : redisFeatureStoreCore)
    (kind : VersionedDataKind) (newItem old : VersionedData) (data : string)
    (fuel : nat) (w : World) :
  let base := featuresKey store kind in
  let field := hashTagKey (GetKey newItem) in
  let w1 := read_world store kind w in
  let w' := snd (UpsertInternal (S fuel) store kind newItem w) in
  fault (next_env w) = None ->
  fault (next_env w1) = None ->
  hash_field (next_db w1) base field = Some data ->
  UnmarshalItem kind data = inl old ->
  GetVersion old >= GetVersion newItem ->
  fst (UpsertInternal (S fuel) store kind newItem w) = Some (Some old, None) /\
  sent w' = HGET base field :: WATCH base :: sent w /\
  db w' = next_db w1 /\
  hash_field (db w') base field = Some data.
Proof.
  intros base field w1 w' Hw Hr Hs Hu Hver. subst w'.
  unfold UpsertInternal. cbn [UpsertInternal_loop]. unfold bind.
  rewrite Watch_run, Hw. fold base. fold (read_world store kind w). fold w1.
  rewrite (UpsertInternal_tx_stale store kind newItem old); cycle 1.
  { eapply GetInternal_found; eauto. }
  { lia. }
  cbn -[arrive]. fold base field. repeat split; try reflexivity. exact Hs.
Qed.

Lemma Tx_Pipeline_Exec_run (pipe : list write) (w : World) :
  Tx_Pipeline_Exec pipe w =
  let w1 := arrive (MULTI_EXEC pipe) w in
  match fault (next_env w) with
  | Some msg => ((Some tt, Some (redis_error msg)), w1)
  | None =>
      if dirty w1 then ((Some tt, Some TxFailedErr), released w1)
      else
        ((Some tt, redis_error <$> snd (fst (apply_writes pipe (db w1)))),
         mkWorld (writes_db pipe (db w1)) None false (sent w1) (pending w1))
  end.
Proof.
  unfold Tx_Pipeline_Exec, bind. rewrite round_trip_arrive.
  destruct (fault (next_env w)); [reflexivity |].
  unfold is_dirty, set_watch, get_db, put_db, ret, writes_db. cbn -[arrive apply_writes].
  destruct (dirty (arrive _ w)); [reflexivity |].
  cbn -[arrive apply_writes].
  destruct (apply_writes pipe _) as [[d' e] m]. destruct e; reflexivity.
Qed.

Lemma dirty_at_exec (store : redisFeatureStoreCore) (kind : VersionedDataKind)
    (key : string) (pipe : list write) (w : World) :
  dirty (arrive (MULTI_EXEC pipe) (exec_world store kind key w))
  = modified_since_watch store kind key w.
Proof. reflexivity. Qed.

(** What the closure does once the read has shown that the write is due:
    it stages the HSET and sends the transaction. *)
Lemma UpsertInternal_tx_fresh (store : redisFeatureStoreCore) (kind : VersionedDataKind)
    (newItem : VersionedData) (oldItem : option VersionedData) (data : string)
    (vars : upsert_vars) (w : World) :
  fst (GetInternal store kind (GetKey newItem) w) = (oldItem, None) ->
  is_stale oldItem newItem = false ->
  json_Marshal newItem = inl data ->
  UpsertInternal_tx store kind newItem vars w
  = let (r, w') :=
      Tx_Pipeline_Exec (staged store kind (GetKey newItem) data)
        (arrive (HGET (featuresKey store kind) (hashTagKey (GetKey newItem))) w) in
    match snd r, fst r with
    | None, None => ((mkVars (item vars) true, None), w')
    | _, _ => ((mkVars (Some newItem) (shouldContinueExecution vars), None), w')
    end.
Proof.
  intros Hget Hfresh Hm. unfold UpsertInternal_tx, bind.
  rewrite GetInternal_split, Hget, Hfresh, Hm.
  cbn [Pipeline_queue app]. fold (staged store kind (GetKey newItem) data).
  destruct (Tx_Pipeline_Exec _ _) as [[result err] w'].
  destruct err, result; reflexivity.
Qed.

(** A conflicting iteration ends the call: the transaction is aborted, its
    error takes the same way out of the closure as any other error of
    [Exec], and the new item is returned with a nil error although it has
    not been written.  The branch that sets [shouldContinueExecution] is
    never taken. *)
Lemma UpsertInternal_conflict_masked (store : redisFeatureStoreCore)
    (kind : VersionedDataKind) (newItem : VersionedData) (data : string)
    (fuel : nat) (w : World) :
  conflict_round store kind newItem data w ->
  UpsertInternal (S fuel) store kind newItem w
  = (Some (Some newItem, None), abandoned store kind (GetKey newItem) data w).
Proof.
  intros [[Hw Hr [oldItem [Hget Hfresh]] Hm] He Hmod].
  unfold UpsertInternal. cbn [UpsertInternal_loop]. unfold bind at 1.
  rewrite Watch_run, Hw. fold (read_world store kind w).
  rewrite (UpsertInternal_tx_fresh _ _ _ oldItem data) by assumption.
  fold (exec_world store kind (GetKey newItem) w).
  rewrite Tx_Pipeline_Exec_run, He. cbv zeta.
  rewrite dirty_at_exec, Hmod. reflexivity.
Qed.

(** When the round-trip of the transaction fails, the closure falls through
    to [item = newItem; return nil]: the call reports success although the
    write has not been made. *)
Lemma UpsertInternal_exec_fault (store : redisFeatureStoreCore)
    (kind : VersionedDataKind) (newItem : VersionedData) (data msg : string)
    (fuel : nat) (w : World) :
  reaches_exec store kind newItem data w ->
  fault (next_env (exec_world store kind (GetKey newItem) w)) = Some msg ->
  UpsertInternal (S fuel) store kind newItem w
  = (Some (Some newItem, None),
     released (arrive (MULTI_EXEC (staged store kind (GetKey newItem) data))
                 (exec_world store kind (GetKey newItem) w))).
Proof.
  intros [Hw Hr [oldItem [Hget Hfresh]] Hm] He.
  unfold UpsertInternal. cbn [UpsertInternal_loop]. unfold bind at 1.
  rewrite Watch_run, Hw. fold (read_world store kind w).
  rewrite (UpsertInternal_tx_fresh _ _ _ oldItem data) by assumption.
  fold (exec_world store kind (GetKey newItem) w).
  rewrite Tx_Pipeline_Exec_run, He. reflexivity.
Qed.

(** When the transaction runs, the write is made and the new item is
    returned. *)
Lemma UpsertInternal_commit (store : redisFeatureStoreCore)
    (kind : VersionedDataKind) (newItem : VersionedData) (data : string)
    (fuel : nat) (w : World) :
  reaches_exec store kind newItem data w ->
  fault (next_env (exec_world store kind (GetKey newItem) w)) = None ->
  modified_since_watch store kind (GetKey newItem) w = false ->
  let w2 := arrive (MULTI_EXEC (staged store kind (GetKey newItem) data))
              (exec_world store kind (GetKey newItem) w) in
  UpsertInternal (S fuel) store kind newItem w
  = (Some (Some newItem, None),
     mkWorld (writes_db (staged store kind (GetKey newItem) data) (db w2))
             None false (sent w2) (pending w2)).
Proof.
  intros [Hw Hr [oldItem [Hget Hfresh]] Hm] He Hmod w2. subst w2.
  unfold UpsertInternal. cbn [UpsertInternal_loop]. unfold bind at 1.
  rewrite Watch_run, Hw. fold (read_world store kind w).
  rewrite (UpsertInternal_tx_fresh _ _ _ oldItem data) by assumption.
  fold (exec_world store kind (GetKey newItem) w).
  rewrite Tx_Pipeline_Exec_run, He. cbv zeta.
  rewrite dirty_at_exec, Hmod.
  destruct (snd (fst (apply_writes _ _))); reflexivity.
Qed.

(** ** The server: how writes compose *)

Lemma featuresKey_inj (store : redisFeatureStoreCore) (k1 k2 : VersionedDataKind) :
  featuresKey store k1 = featuresKey store k2 -> GetNamespace k1 = GetNamespace k2.
Proof.
  unfold featuresKey. intros Heq.
  apply (inj (String.app _)) in Heq. apply (inj (String.app _)) in Heq.
  by apply append_inj_r in Heq.
Qed.

Lemma featuresKey_initedKey (store : redisFeatureStoreCore) (kind : VersionedDataKind) :
  featuresKey store kind = initedKey store <-> GetNamespace kind = "$inited".
Proof.
  unfold featuresKey, initedKey, initedKey_const. split.
  - intros Heq.
    apply (inj (String.app _)) in Heq. apply (inj (String.app _)) in Heq.
    by apply append_inj_r in Heq.
  - intros ->. reflexivity.
Qed.

Lemma writes_db_cons (c : write) (cs : list write) (d : gmap string rvalue) :
  writes_db (c :: cs) d = writes_db cs (fst (fst (apply_write c d))).
Proof.
  unfold writes_db. cbn [apply_writes].
  destruct (apply_write c d) as [[d1 e1] m1]. cbn [fst snd].
  destruct (apply_writes cs d1) as [[d2 e2] m2]. reflexivity.
Qed.

Lemma writes_err_cons (c : write) (cs : list write) (d : gmap string rvalue) :
  writes_err (c :: cs) d =
  match snd (fst (apply_write c d)) with
  | Some e => Some e
  | None => writes_err cs (fst (fst (apply_write c d)))
  end.
Proof.
  unfold writes_err. cbn [apply_writes].
  destruct (apply_write c d) as [[d1 e1] m1]. cbn [fst snd].
  destruct (apply_writes cs d1) as [[d2 e2] m2]. destruct e1; reflexivity.
Qed.

Lemma writes_db_app (a b : list write) (d : gmap string rvalue) :
  writes_db (a ++ b) d = writes_db b (writes_db a d).
Proof.
  revert d. induction a as [|c a IH]; intros d; [reflexivity |].
  rewrite <- app_comm_cons, !writes_db_cons. apply IH.
Qed.

Lemma writes_err_app (a b : list write) (d : gmap string rvalue) :
  writes_err (a ++ b) d =
  match writes_err a d with
  | Some e => Some e
  | None => writes_err b (writes_db a d)
  end.
Proof.
  revert d. induction a as [|c a IH]; intros d; [reflexivity |].
  rewrite <- app_comm_cons, !writes_err_cons, writes_db_cons.
  destruct (snd (fst (apply_write c d))); [reflexivity | apply IH].
Qed.

(** A write leaves every key but its own alone. *)
Lemma apply_write_other (c : write) (d : gmap string rvalue) (k : string) :
  write_key c <> k -> fst (fst (apply_write c d)) !! k = d !! k.
Proof.
  intros Hk. destruct c as [k0 | k0 f v | k0 v]; cbn in Hk |- *.
  - destruct (d !! k0); cbn; [by rewrite lookup_delete_ne | done].
  - destruct (d !! k0) as [[s | h] |]; cbn; by rewrite ?lookup_insert_ne.
  - by rewrite lookup_insert_ne.
Qed.

Lemma writes_db_other (cs : list write) (d : gmap string rvalue) (k : string) :
  Forall (fun c => write_key c <> k) cs -> writes_db cs d !! k = d !! k.
Proof.
  intros Hcs. revert d. induction Hcs as [|c cs Hc _ IH]; intros d; [reflexivity |].
  rewrite writes_db_cons, IH. by apply apply_write_other.
Qed.


(** HSET on a key that holds no string succeeds and sets the one field. *)
Lemma apply_write_HSET (d : gmap string rvalue) (k f v : string) :
  not_a_string d k = true ->
  let d' := fst (fst (apply_write (HSET k f v) d)) in
  snd (fst (apply_write (HSET k f v) d)) = None /\
  not_a_string d' k = true /\
  key_exists d' k = true /\
  forall f', hash_field d' k f' = if String.eqb f f' then Some v else hash_field d k f'.
Proof.
  unfold not_a_string, key_exists, hash_field. cbn.
  destruct (d !! k) as [[s | h] |] eqn:Hd; intros Hns; try discriminate; cbn;
    rewrite lookup_insert_eq; repeat split; intros f';
    destruct (String.eqb_spec f f') as [-> | Hne].
  - by rewrite lookup_insert_eq.
  - by rewrite lookup_insert_ne.
  - by rewrite lookup_singleton_eq.
  - by rewrite lookup_singleton_ne.
Qed.

Lemma item_writes_keys (base : string) (items : list (string * VersionedData)) :
  Forall (fun c => write_key c = base) (item_writes base items).
Proof.
  induction items as [|[k v] rest IH]; cbn; [constructor |].
  destruct (json_Marshal v); [constructor |]; done.
Qed.

(** The HSETs of one collection, run on a key that holds no string: none
    fails, and the fields they name hold the serialized items. *)
Lemma item_writes_run (base : string) (items : list (string * VersionedData)) :
  forall d : gmap string rvalue,
    not_a_string d base = true ->
    writes_err (item_writes base items) d = None /\
    forall f, hash_field (writes_db (item_writes base items) d) base f
              = match fields_of items f with
                | Some data => Some data
                | None => hash_field d base f
                end.
Proof.
  induction items as [|[k v] rest IH]; intros d Hns.
  - split; [reflexivity | intros f; reflexivity].
  - cbn [item_writes fields_of]. destruct (json_Marshal v) as [data | e].
    + destruct (apply_write_HSET d base (hashTagKey k) data Hns)
        as (Herr & Hns' & _ & Hf).
      rewrite writes_err_cons, writes_db_cons, Herr.
      destruct (IH _ Hns') as [IHerr IHf]. split; [exact IHerr |].
      intros f. rewrite IHf, Hf. destruct (fields_of rest f); [reflexivity |].
      destruct (String.eqb _ _); reflexivity.
    + destruct (IH _ Hns) as [IHerr IHf]. split; [exact IHerr |].
      intros f. rewrite IHf. destruct (fields_of rest f); [reflexivity |].
      destruct (String.eqb _ _); reflexivity.
Qed.

Lemma apply_write_DEL (d : gmap string rvalue) (k : string) :
  snd (fst (apply_write (DEL k) d)) = None /\
  fst (fst (apply_write (DEL k) d)) !! k = None.
Proof.
  cbn. destruct (d !! k) eqn:Hd; cbn; [by rewrite lookup_delete_eq | done].
Qed.

(** DEL followed by the HSETs: the collection holds exactly the given
    items, whatever it held before. *)
Lemma kind_writes_run (store : redisFeatureStoreCore)
    (ki : VersionedDataKind * list (string * VersionedData)) (d : gmap string rvalue) :
  writes_err (kind_writes store ki) d = None /\
  forall f, hash_field (writes_db (kind_writes store ki) d) (featuresKey store (fst ki)) f
            = fields_of (snd ki) f.
Proof.
  unfold kind_writes. rewrite writes_err_cons, writes_db_cons.
  destruct (apply_write_DEL d (featuresKey store (fst ki))) as [-> Hdel].
  destruct (item_writes_run (featuresKey store (fst ki)) (snd ki)
              (fst (fst (apply_write (DEL (featuresKey store (fst ki))) d))))
    as [Herr Hf].
  { unfold not_a_string. by rewrite Hdel. }
  split; [exact Herr |]. intros f. rewrite Hf.
  unfold hash_field. rewrite Hdel. by destruct (fields_of _ _).
Qed.

Lemma kind_writes_keys (store : redisFeatureStoreCore)
    (ki : VersionedDataKind * list (string * VersionedData)) :
  Forall (fun c => write_key c = featuresKey store (fst ki)) (kind_writes store ki).
Proof. constructor; [reflexivity | apply item_writes_keys]. Qed.

Lemma flat_map_kind_writes_err (store : redisFeatureStoreCore)
    (allData : list (VersionedDataKind * list (string * VersionedData))) :
  forall d, writes_err (flat_map (kind_writes store) allData) d = None.
Proof.
  induction allData as [|ki rest IH]; intros d; [reflexivity |].
  cbn [flat_map]. rewrite writes_err_app.
  destruct (kind_writes_run store ki d) as [-> _]. apply IH.
Qed.

Lemma flat_map_kind_writes_keys (store : redisFeatureStoreCore)
    (allData : list (VersionedDataKind * list (string * VersionedData))) (k : string) :
  Forall (fun ki => featuresKey store (fst ki) <> k) allData ->
  Forall (fun c => write_key c <> k) (flat_map (kind_writes store) allData).
Proof.
  induction 1 as [|ki rest Hki _ IH]; cbn [flat_map]; [constructor |].
  apply Forall_app. split; [| exact IH].
  eapply Forall_impl; [apply kind_writes_keys |]. cbn. by intros c ->.
Qed.

(** ** [InitInternal] *)

Lemma Pipeline_Exec_run (pipe : list write) (w : World) :
  Pipeline_Exec pipe w =
  let w1 := arrive (PIPELINE pipe) w in
  match fault (next_env w) with
  | Some msg => ((None, Some (redis_error msg)), w1)
  | None =>
      ((Some tt, redis_error <$> writes_err pipe (db w1)),
       mkWorld (writes_db pipe (db w1)) (watched w1) (dirty w1) (sent w1) (pending w1))
  end.
Proof.
  unfold Pipeline_Exec, bind. rewrite round_trip_arrive.
  destruct (fault (next_env w)); [reflexivity |].
  unfold get_db, put_db, ret, writes_db, writes_err. cbn -[arrive apply_writes].
  destruct (apply_writes pipe _) as [[d' e] m]. destruct e; reflexivity.
Qed.

Lemma InitInternal_items_queue (kind : VersionedDataKind) (base : string)
    (items : list (string * VersionedData)) :
  forall pipe,
    InitInternal_items kind base items pipe =
    if forallb (fun kv => is_nil (match json_Marshal (snd kv) with
                                  | inl _ => None
                                  | inr e => Some e
                                  end)) items
    then ((pipe ++ item_writes base items)%list, None)
    else (fst (InitInternal_items kind base items pipe),
          Some (default redis_Nil (snd (InitInternal_items kind base items pipe)))).
Proof.
  induction items as [|[k v] rest IH]; intros pipe.
  - cbn. by rewrite app_nil_r.
  - cbn [InitInternal_items forallb item_writes snd].
    destruct (json_Marshal v) as [data | e]; cbn [is_nil andb]; [| reflexivity].
    rewrite IH. cbn [Pipeline_queue fst].
    destruct (forallb _ rest); [| reflexivity].
    by rewrite <- app_assoc.
Qed.

Lemma InitInternal_kinds_queue (store : redisFeatureStoreCore)
    (allData : list (VersionedDataKind * list (string * VersionedData))) :
  forall pipe,
    InitInternal_kinds store allData pipe =
    if serializable allData
    then ((pipe ++ flat_map (kind_writes store) allData)%list, None)
    else (fst (InitInternal_kinds store allData pipe),
          Some (default redis_Nil (snd (InitInternal_kinds store allData pipe)))).
Proof.
  induction allData as [|[kind items] rest IH]; intros pipe.
  - cbn. by rewrite app_nil_r.
  - cbn [InitInternal_kinds serializable forallb flat_map snd].
    rewrite InitInternal_items_queue. cbn [Pipeline_queue fst].
    destruct (forallb _ items); cbn [andb]; [| reflexivity].
    rewrite IH. fold (serializable rest).
    destruct (serializable rest); [| reflexivity].
    unfold kind_writes. cbn [fst snd].
    by rewrite <- !app_assoc.
Qed.

(** What [InitInternal] comes to: nothing at all when an item does not
    serialize, and otherwise one pipeline carrying [init_writes]. *)
Lemma InitInternal_run (store : redisFeatureStoreCore)
    (allData : list (VersionedDataKind * list (string * VersionedData))) (w : World) :
  InitInternal store allData w =
  if serializable allData
  then (snd (fst (Pipeline_Exec (init_writes store allData) w)),
        snd (Pipeline_Exec (init_writes store allData) w))
  else (Some (default redis_Nil (snd (InitInternal_kinds store allData []))), w).
Proof.
  unfold InitInternal. rewrite InitInternal_kinds_queue.
  destruct (serializable allData); [| reflexivity].
  cbn [Pipeline_queue fst app]. fold (init_writes store allData).
  unfold bind. destruct (Pipeline_Exec _ w) as [[r e] w']. reflexivity.
Qed.

Lemma init_writes_err (store : redisFeatureStoreCore)
    (allData : list (VersionedDataKind * list (string * VersionedData)))
    (d : gmap string rvalue) :
  writes_err (init_writes store allData) d = None.
Proof.
  unfold init_writes. rewrite writes_err_app, flat_map_kind_writes_err. reflexivity.
Qed.

Lemma init_writes_marker (store : redisFeatureStoreCore)
    (allData : list (VersionedDataKind * list (string * VersionedData)))
    (d : gmap string rvalue) :
  writes_db (init_writes store allData) d !! initedKey store = Some (RString "").
Proof.
  unfold init_writes. rewrite writes_db_app.
  unfold writes_db at 1. cbn. apply lookup_insert_eq.
Qed.



(** ** The marker key *)

Lemma arrive_undisturbed (k : string) (c : command) (w : World) :
  undisturbed k w -> undisturbed k (arrive c w).
Proof.
  unfold undisturbed. cbn [arrive pending].
  destruct (pending w); [done |]. by inversion 1.
Qed.







Lemma GetAllInternal_arrive (store : redisFeatureStoreCore) (kind : VersionedDataKind)
    (w : World) :
  snd (GetAllInternal store kind w) = arrive (HGETALL (featuresKey store kind)) w.
Proof.
  unfold GetAllInternal, HGetAll, bind. rewrite round_trip_arrive.
  destruct (fault (next_env w)); [reflexivity |].
  unfold get_db. cbn -[arrive].
  destruct (db (arrive _ w) !! _) as [[s | h] |]; reflexivity.
Qed.








(** ** [GetAllInternal] and the keys it returns *)

(** The loop over the entries of a hash whose fields are tagged forms of
    keys that do not contain the tag, and whose values all decode: it
    files every item under the key it was stored with. *)
Lemma GetAllInternal_range_lookup (kind : VersionedDataKind) (err : option error) :
  forall (l : list (string * string)) (acc : gmap string VersionedData),
    NoDup (l.*1) ->
    (forall f data, (f, data) ∈ l ->
       exists key item, f = hashTagKey key /\ strings.Contains key tag = false /\
                        UnmarshalItem kind data = inl item) ->
    exists m,
      GetAllInternal_range kind err l acc = (Some m, None) /\
      forall key item,
        m !! key = Some item <->
        (exists data, (hashTagKey key, data) ∈ l /\ UnmarshalItem kind data = inl item) \/
        ((forall data, (hashTagKey key, data) ∉ l) /\ acc !! key = Some item).
Proof.
  induction l as [|[f d] rest IH]; intros acc Hnd Hwf.
  - exists acc. split; [reflexivity |]. intros key item. split.
    + intros Hacc. right. split; [| exact Hacc]. intros data Hin. by inversion Hin.
    + intros [(data & Hin & _) | [_ Hacc]]; [by inversion Hin | exact Hacc].
  - cbn [fmap list_fmap fst] in Hnd. apply NoDup_cons in Hnd as [Hnotin Hnd].
    destruct (Hwf f d (list_elem_of_here _ _)) as (k0 & item0 & -> & Hk0 & Hdec).
    assert (forall data, (hashTagKey k0, data) ∉ rest) as Hfresh.
    { intros data Hin. apply Hnotin. apply list_elem_of_fmap.
      by exists (hashTagKey k0, data). }
    cbn [GetAllInternal_range]. rewrite Hdec, removeHashTagKey_untagged by exact Hk0.
    destruct (IH (<[k0 := item0]> acc) Hnd) as (m & Hm & Hlook).
    { intros f data Hin. apply Hwf. by apply list_elem_of_further. }
    exists m. split; [exact Hm |]. intros key item. rewrite Hlook.
    destruct (decide (key = k0)) as [-> | Hne].
    + rewrite lookup_insert_eq. split.
      * intros [(data & Hin & _) | [_ [= <-]]]; [by apply Hfresh in Hin |].
        left. exists d. split; [apply list_elem_of_here | exact Hdec].
      * intros [(data & Hin & Hd) | [Hno _]].
        -- apply elem_of_cons in Hin as [[= <-] | Hin]; [| by apply Hfresh in Hin].
           right. split; [exact Hfresh | congruence].
        -- destruct (Hno d). apply list_elem_of_here.
    + rewrite lookup_insert_ne by congruence.
      assert (forall data, (hashTagKey key, data) ∈ (hashTagKey k0, d) :: rest <->
                           (hashTagKey key, data) ∈ rest) as Hin_iff.
      { intros data. rewrite elem_of_cons. split; [| by right].
        intros [[= Heq _] | Hin]; [| exact Hin].
        apply hashTagKey_inj in Heq. congruence. }
      split.
      * intros [(data & Hin & Hd) | [Hno Hacc]].
        -- left. exists data. by rewrite Hin_iff.
        -- right. split; [| exact Hacc]. intros data. rewrite Hin_iff. apply Hno.
      * intros [(data & Hin & Hd) | [Hno Hacc]].
        -- left. exists data. by rewrite <- Hin_iff.
        -- right. split; [| exact Hacc]. intros data. rewrite <- Hin_iff. apply Hno.
Qed.

Lemma GetAllInternal_supplied_keys (store : redisFeatureStoreCore)
    (kind : VersionedDataKind) (h : gmap string string) (w : World) :
  fault (next_env w) = None ->
  next_db w !! featuresKey store kind = Some (RHash h) ->
  (forall f data, h !! f = Some data ->
     exists key item, f = hashTagKey key /\ strings.Contains key tag = false /\
                      UnmarshalItem kind data = inl item) ->
  exists m,
    fst (GetAllInternal store kind w) = (Some m, None) /\
    forall key item,
      m !! key = Some item <->
      exists data, h !! hashTagKey key = Some data /\ UnmarshalItem kind data = inl item.
Proof.
  intros Hf Hh Hwf. unfold GetAllInternal, HGetAll, bind.
  rewrite round_trip_arrive, Hf. unfold get_db. cbn -[arrive].
  change (db (arrive (HGETALL (featuresKey store kind)) w)) with (next_db w).
  rewrite Hh. cbn.
  destruct (GetAllInternal_range_lookup kind None (map_to_list h) ∅) as (m & Hm & Hlook).
  { apply NoDup_fst_map_to_list. }
  { intros f data Hin. apply elem_of_map_to_list in Hin. eauto. }
  exists m. split; [exact Hm |]. intros key item. rewrite Hlook. split.
  - intros [(data & Hin & Hd) | [_ Hacc]]; [| by rewrite lookup_empty in Hacc].
    exists data. by rewrite <- elem_of_map_to_list.
  - intros (data & Hin & Hd). left. exists data. by rewrite elem_of_map_to_list.
Qed.

(** C8. For a key that does not contain [".{ld}"], stripping the hash tag
    from the tagged key gives the key back; so when the fields of a stored
    hash are the tagged forms of such keys, [GetAllInternal] returns each
    item under the very key it was stored with.  For a key that does
    contain [".{ld}"], the round trip strips the occurrences inside the key
    as well: the result is what [removeHashTagKey] makes of the key alone,
    it is shorter than the key by five bytes per occurrence, and so it is
    not the key. *)
Theorem removeHashTagKey_roundtrip (key : string) :
  (strings.Contains key ".{ld}" = false ->
   removeHashTagKey (hashTagKey key) = key) /\
  (strings.Contains key ".{ld}" = true ->
   removeHashTagKey (hashTagKey key) = removeHashTagKey key /\
   (String.length (removeHashTagKey (hashTagKey key)) + 5 * occurrences key ".{ld}"
    = String.length key)%nat /\
   (1 <= occurrences key ".{ld}")%nat /\
   removeHashTagKey (hashTagKey key) <> key) /\
  (forall store kind h w,
      fault (next_env w) = None ->
      next_db w !! featuresKey store kind = Some (RHash h) ->
      (forall f data, h !! f = Some data ->
         exists k item, f = hashTagKey k /\ strings.Contains k ".{ld}" = false /\
                        UnmarshalItem kind data = inl item) ->
      exists m,
        fst (GetAllInternal store kind w) = (Some m, None) /\
        forall k item,
          m !! k = Some item <->
          exists data, h !! hashTagKey k = Some data /\ UnmarshalItem kind data = inl item).
Proof.
  change ".{ld}" with tag. split; [apply removeHashTagKey_untagged |]. split.
  - intros Hc. destruct (removeHashTagKey_tagged key Hc) as [Hlen Hcount].
    split; [apply removeHashTagKey_hashTagKey |]. split; [exact Hlen |].
    split; [exact Hcount |]. intros Heq. rewrite Heq in Hlen. lia.
  - intros store kind h w. apply GetAllInternal_supplied_keys.
Qed.

End StoreProperties.

(** ** The caching wrapper and the cache TTL *)

Lemma validateOptions_CacheTTL (ttl : Z) :
  GetCacheTTL (store_with_ttl ttl) = ttl /\
  GetCacheTTL default_store = DefaultCacheTTL.
Proof. split; reflexivity. Qed.

Section WrapperProperties.

Context {codec : Codec}.




End WrapperProperties.

(** ** The store on concrete data *)

Example init_then_get :
  let w := snd (@InitInternal byte_codec default_store [(features, [("flagA", flagA 1)])]
                  empty_world) in
  fst (@GetInternal byte_codec default_store features "flagA" w) = (Some (flagA 1), None) /\
  fst (InitializedInternal default_store w) = true /\
  fst (InitializedInternal default_store empty_world) = false.
Proof. vm_compute. repeat split; reflexivity. Qed.

Example upsert_same_version_is_a_noop :
  let run := @UpsertInternal byte_codec 1 default_store features
               (mkItem "flagA" 1 true "") (stored_world 1) in
  fst run = Some (Some (flagA 1), None) /\
  fst (@GetInternal byte_codec default_store features "flagA" (snd run))
  = (Some (flagA 1), None).
Proof. vm_compute. split; reflexivity. Qed.

Example upsert_newer_version :
  let run := @UpsertInternal byte_codec 1 default_store features (flagA 2) (stored_world 1) in
  fst run = Some (Some (flagA 2), None) /\
  fst (@GetInternal byte_codec default_store features "flagA" (snd run))
  = (Some (flagA 2), None).
Proof. vm_compute. split; reflexivity. Qed.

Example upsert_then_get :
  let run := @UpsertInternal byte_codec 1 default_store features (flagA 2) empty_world in
  fst run = Some (Some (flagA 2), None) /\
  fst (@GetInternal byte_codec default_store features "flagA" (snd run))
  = (Some (flagA 2), None).
Proof. vm_compute. split; reflexivity. Qed.

(** A tie: version 1 is stored and version 1 is upserted. *)
Lemma UpsertInternal_stale_write_dropped_witness :
  fst (@UpsertInternal byte_codec 1 default_store features (flagA 1) (stored_world 1))
  = Some (Some (flagA 1), None) /\
  db (snd (@UpsertInternal byte_codec 1 default_store features (flagA 1) (stored_world 1)))
  = db (stored_world 1).
Proof.
  destruct (@UpsertInternal_stale_write_dropped byte_codec default_store features
              (flagA 1) (flagA 1) (bytes_of (flagA 1)) 0 (stored_world 1))
    as (Hres & _ & Hdb & _).
  - reflexivity.
  - reflexivity.
  - vm_compute. reflexivity.
  - reflexivity.
  - simpl. lia.
  - split; [exact Hres | rewrite Hdb; vm_compute; reflexivity].
Defined.

Lemma contended_world_conflict :
  @conflict_round byte_codec default_store features (flagA 1) (bytes_of (flagA 1))
    contended_world.
Proof.
  repeat split; try (vm_compute; reflexivity).
  exists None. split; vm_compute; reflexivity.
Qed.

(** C2. A detected conflict is not retried.  Here another client stores
    [flagB] in the collection between the read and the EXEC, so the server
    aborts the transaction.  [UpsertInternal] returns from this first
    iteration, with the new item and a nil error: WATCH, HGET and the
    transaction have been sent once, [flagA] has not been written, and a
    later read of it finds nothing. *)
Theorem UpsertInternal_conflict_not_retried :
  let base := featuresKey default_store features in
  let run := @UpsertInternal byte_codec 1 default_store features (flagA 1)
               contended_world in
  modified_since_watch default_store features "flagA" contended_world = true /\
  fst run = Some (Some (flagA 1), None) /\
  sent (snd run)
  = [MULTI_EXEC [HSET base (hashTagKey "flagA") (bytes_of (flagA 1))];
     HGET base (hashTagKey "flagA"); WATCH base] /\
  hash_field (db (snd run)) base (hashTagKey "flagA") = None /\
  hash_field (db (snd run)) base (hashTagKey "flagB") = Some (bytes_of (flagB 1)) /\
  fst (@GetInternal byte_codec default_store features "flagA" (snd run)) = (None, None).
Proof. vm_compute. repeat split; reflexivity. Qed.

(** C3. A failure of the commit is not returned.  Here the round-trip of
    the transaction fails; [UpsertInternal] nevertheless returns the new
    item with a nil error, after one iteration and without having written:
    the error of [Exec] is dropped, and a later read finds nothing. *)
Theorem UpsertInternal_exec_error_masked :
  let run := @UpsertInternal byte_codec 1 default_store features (flagA 1) exec_fails_world in
  fault (next_env (exec_world default_store features "flagA" exec_fails_world))
  = Some "read tcp 10.0.0.7:6379: connection reset by peer" /\
  fst run = Some (Some (flagA 1), None) /\
  db (snd run) = ∅ /\
  fst (@GetInternal byte_codec default_store features "flagA" (snd run)) = (None, None).
Proof. vm_compute. repeat split; reflexivity. Qed.






(** A key that is not stored, and a connection that is down. *)
Lemma GetInternal_missing_is_not_an_error_witness :
  fst (@GetInternal byte_codec default_store features "flagB" (stored_world 1))
  = (None, None) /\
  fst (@GetInternal byte_codec default_store features "flagA" unreachable_world)
  = (None, Some (redis_error "dial tcp 10.0.0.7:6379: i/o timeout")).
Proof.
  split.
  - apply (proj1 (@GetInternal_missing_is_not_an_error byte_codec default_store features
                    "flagB" (stored_world 1))); vm_compute; reflexivity.
  - apply (proj1 (proj2 (@GetInternal_missing_is_not_an_error byte_codec default_store
                           features "flagA" unreachable_world))).
    reflexivity.
Defined.

(** A plain key, a key containing the tag, and a stored collection. *)
Lemma removeHashTagKey_roundtrip_witness :
  removeHashTagKey (hashTagKey "flagA") = "flagA" /\
  removeHashTagKey (hashTagKey "a.{ld}b") <> "a.{ld}b" /\
  exists m,
    fst (@GetAllInternal byte_codec default_store features (stored_world 1)) = (Some m, None) /\
    m !! "flagA" = Some (flagA 1).
Proof.
  split; [| split].
  - apply (proj1 (@removeHashTagKey_roundtrip byte_codec "flagA")). reflexivity.
  - apply (proj1 (proj2 (@removeHashTagKey_roundtrip byte_codec "a.{ld}b"))). reflexivity.
  - destruct (proj2 (proj2 (@removeHashTagKey_roundtrip byte_codec ""))
                default_store features
                {[ hashTagKey "flagA" := bytes_of (flagA 1) ]} (stored_world 1))
      as (m & Hm & Hlook).
    + reflexivity.
    + vm_compute. reflexivity.
    + intros f data Hf. apply lookup_singleton_Some in Hf as [<- <-].
      exists "flagA", (flagA 1). repeat split.
    + exists m. split; [exact Hm |]. apply Hlook.
      exists (bytes_of (flagA 1)). split; [apply lookup_singleton_eq | reflexivity].
Defined.

(** * Further properties *)

(** ** Options *)

Lemma apply_no_error (o : FeatureStoreOption) (opts : redisFeatureStoreOptions) :
  snd (apply o opts) = None.
Proof. destruct o; cbn; [destruct (String.eqb p "") |..]; reflexivity. Qed.

Lemma apply_prefix_nonempty (o : FeatureStoreOption) (opts : redisFeatureStoreOptions) :
  prefix opts <> "" -> prefix (fst (apply o opts)) <> "".
Proof.
  intros Hp. destruct o; cbn; try exact Hp.
  destruct (String.eqb_spec p ""); cbn; [discriminate | assumption].
Qed.

Lemma validateOptions_loop_step (o : FeatureStoreOption)
    (rest : list FeatureStoreOption) (ret : redisFeatureStoreOptions) :
  validateOptions_loop (o :: rest) ret = validateOptions_loop rest (fst (apply o ret)).
Proof.
  cbn [validateOptions_loop]. pose proof (apply_no_error o ret) as He.
  destruct (apply o ret) as [ret' e]. cbn in He. subst e. reflexivity.
Qed.

Lemma validateOptions_loop_app (a b : list FeatureStoreOption)
    (ret : redisFeatureStoreOptions) :
  validateOptions_loop (a ++ b) ret
  = validateOptions_loop b (fst (validateOptions_loop a ret)).
Proof.
  revert ret. induction a as [|o a IH]; intros ret; [reflexivity |].
  rewrite <- app_comm_cons, !validateOptions_loop_step. apply IH.
Qed.

(** X1. [validateOptions] never returns an error, whatever the options, and
    the prefix it returns is never the empty string. *)
Theorem validateOptions_never_fails (opts : list FeatureStoreOption) :
  snd (validateOptions opts) = None /\
  prefix (fst (validateOptions opts)) <> "".
Proof.
  unfold validateOptions.
  assert (forall ret, prefix ret <> "" ->
            snd (validateOptions_loop opts ret) = None /\
            prefix (fst (validateOptions_loop opts ret)) <> "") as Hloop.
  { induction opts as [|o rest IH]; intros ret Hp; [by split |].
    rewrite validateOptions_loop_step. apply IH. by apply apply_prefix_nonempty. }
  apply Hloop. discriminate.
Qed.

(** X2. Options are applied in order and each sets only its own fields, so
    the last option of a sort decides: a trailing [CacheTTL] sets the TTL,
    a trailing [AddrPassword] the address and password, a trailing
    [Prefix] the prefix (the default prefix when it is empty, even after
    an earlier option had set another one), and the other fields are what
    the options before it gave. *)
Theorem validateOptions_last_option_wins (opts : list FeatureStoreOption)
    (ttl : Z) (a pw p : string) :
  let before := fst (validateOptions opts) in
  fst (validateOptions (opts ++ [CacheTTL ttl]))
  = mkOptions (prefix before) (addr before) (password before) ttl /\
  fst (validateOptions (opts ++ [AddrPassword a pw]))
  = mkOptions (prefix before) a pw (cacheTTL before) /\
  fst (validateOptions (opts ++ [Prefix p]))
  = mkOptions (if String.eqb p "" then DefaultPrefix else p)
              (addr before) (password before) (cacheTTL before).
Proof.
  unfold validateOptions. rewrite !validateOptions_loop_app.
  cbn. destruct (String.eqb p ""); repeat split.
Qed.

(** ** Keys *)

(** X3. The key of a collection determines the namespace of its kind, so
    kinds with different namespaces never share a key; it is the marker key
    exactly for the namespace ["$inited"]; and different item keys are
    stored under different fields. *)
Theorem storage_keys_collide_iff (store : redisFeatureStoreCore)
    (k1 k2 : VersionedDataKind) (a b : string) :
  String.eqb (featuresKey store k1) (featuresKey store k2)
  = String.eqb (GetNamespace k1) (GetNamespace k2) /\
  String.eqb (featuresKey store k1) (initedKey store)
  = String.eqb (GetNamespace k1) "$inited" /\
  String.eqb (hashTagKey a) (hashTagKey b) = String.eqb a b.
Proof.
  repeat split.
  - destruct (String.eqb_spec (GetNamespace k1) (GetNamespace k2)) as [Heq | Hne].
    + apply String.eqb_eq. unfold featuresKey. by rewrite Heq.
    + apply String.eqb_neq. intros Heq. by apply featuresKey_inj in Heq.
  - destruct (String.eqb_spec (GetNamespace k1) "$inited") as [Heq | Hne].
    + apply String.eqb_eq. by apply featuresKey_initedKey.
    + apply String.eqb_neq. intros Heq. by apply featuresKey_initedKey in Heq.
  - destruct (String.eqb_spec a b) as [-> | Hne].
    + apply String.eqb_refl.
    + apply String.eqb_neq. intros Heq. by apply hashTagKey_inj in Heq.
Qed.

(** X4. [removeHashTagKey] takes five bytes away for every occurrence of
    [".{ld}"] in its argument, so it returns its argument unchanged exactly
    when the argument does not contain the tag.  Hence an item key that
    ends in the tag comes back from the round trip as the key without it:
    the keys [k] and [k.{ld}] are stored under different fields, and
    [GetAllInternal] files both under one key. *)
Theorem removeHashTagKey_strips_per_occurrence (s : string) :
  (String.length (removeHashTagKey s) + 5 * occurrences s ".{ld}"
   = String.length s)%nat /\
  String.eqb (removeHashTagKey s) s = negb (strings.Contains s ".{ld}") /\
  hashTagKey (hashTagKey s) <> hashTagKey s /\
  removeHashTagKey (hashTagKey (hashTagKey s)) = removeHashTagKey (hashTagKey s).
Proof.
  change ".{ld}" with tag.
  pose proof (replace_scan_length s O) as Hlen.
  rewrite Nat.min_0_l, Nat.add_0_r, (count_scan_occurrences s O I) in Hlen.
  rewrite removeHashTagKey_scan. split; [exact Hlen |]. split; [| split].
  - destruct (strings.Contains s tag) eqn:Hc; cbn [negb].
    + apply String.eqb_neq. intros Heq. rewrite Heq in Hlen.
      apply count_scan_contains in Hc.
      rewrite (count_scan_occurrences s O I) in Hc. lia.
    + apply String.eqb_eq. by apply replace_scan_no_tag.
  - intros Heq. apply (f_equal String.length) in Heq.
    unfold hashTagKey in Heq. rewrite !length_append in Heq. simpl in Heq. lia.
  - by rewrite !removeHashTagKey_hashTagKey.
Qed.

(** ** [UpsertInternal], iteration by iteration *)

Lemma only_others_refl (w : World) : only_others_wrote w w.
Proof. exists O. split; reflexivity. Qed.

Lemma only_others_arrive (c : command) (w : World) : only_others_wrote w (arrive c w).
Proof.
  exists 1%nat. cbn [arrive pending db]. unfold next_db, next_env.
  destruct (pending w) as [|e rest]; cbn; [by split |].
  by rewrite app_nil_r.
Qed.

Lemma only_others_trans (w1 w2 w3 : World) :
  only_others_wrote w1 w2 -> only_others_wrote w2 w3 -> only_others_wrote w1 w3.
Proof.
  intros (n1 & Hp1 & Hd1) (n2 & Hp2 & Hd2). exists (n1 + n2)%nat. split.
  - by rewrite Hp2, Hp1, drop_drop.
  - rewrite Hd2, Hd1, Hp1, <- writes_db_app, <- flat_map_app.
    by rewrite take_take_drop.
Qed.

Lemma only_others_same (w w' : World) :
  db w' = db w -> pending w' = pending w -> only_others_wrote w w'.
Proof. intros Hd Hp. exists O. by split. Qed.

Section UpsertSteps.

Context {codec : Codec}.

Variables (store : redisFeatureStoreCore) (kind : VersionedDataKind)
          (newItem : VersionedData).

(** The closure, case by case. *)
Lemma UpsertInternal_tx_run (vars : upsert_vars) (w : World) :
  let w1 := arrive (HGET (featuresKey store kind) (hashTagKey (GetKey newItem))) w in
  UpsertInternal_tx store kind newItem vars w =
  match fst (GetInternal store kind (GetKey newItem) w) with
  | (_, Some err) => ((vars, Some err), w1)
  | (oldItem, None) =>
      if is_stale oldItem newItem
      then ((mkVars oldItem (shouldContinueExecution vars), None), w1)
      else
        match json_Marshal newItem with
        | inr jsonErr =>
            ((vars,
              Some (fmt_Errorf ("failed to marshal " +:+ KindString kind +:+ " key "
                                +:+ GetKey newItem +:+ ": " +:+ error_message jsonErr))),
             w1)
        | inl data =>
            let pipe := staged store kind (GetKey newItem) data in
            let w2 := arrive (MULTI_EXEC pipe) w1 in
            match fault (next_env w1) with
            | Some _ => ((mkVars (Some newItem) (shouldContinueExecution vars), None), w2)
            | None =>
                if dirty w2
                then ((mkVars (Some newItem) (shouldContinueExecution vars), None),
                      released w2)
                else ((mkVars (Some newItem) (shouldContinueExecution vars), None),
                      mkWorld (writes_db pipe (db w2)) None false (sent w2) (pending w2))
            end
        end
  end.
Proof.
  intros w1. subst w1.
  destruct (fst (GetInternal store kind (GetKey newItem) w)) as [oldItem err] eqn:Hget.
  destruct err as [err |].
  { unfold UpsertInternal_tx, bind. rewrite GetInternal_split, Hget. reflexivity. }
  destruct (is_stale oldItem newItem) eqn:Hstale.
  { unfold UpsertInternal_tx, bind. rewrite GetInternal_split, Hget, Hstale. reflexivity. }
  destruct (json_Marshal newItem) as [data | jsonErr] eqn:Hm.
  2: { unfold UpsertInternal_tx, bind.
       rewrite GetInternal_split, Hget, Hstale, Hm. reflexivity. }
  rewrite (UpsertInternal_tx_fresh store kind newItem oldItem data) by assumption.
  rewrite Tx_Pipeline_Exec_run. cbv zeta.
  destruct (fault (next_env _)); [reflexivity |].
  destruct (dirty _); [reflexivity |].
  destruct (snd (fst (apply_writes _ _))); reflexivity.
Qed.

(** One turn of the loop. *)
Lemma UpsertInternal_loop_run (fuel : nat) (item0 : option VersionedData) (w : World) :
  UpsertInternal_loop (S fuel) store kind newItem item0 w =
  match fault (next_env w) with
  | Some msg =>
      (Some (None, Some (redis_error msg)), arrive (WATCH (featuresKey store kind)) w)
  | None =>
      let r := UpsertInternal_tx store kind newItem (mkVars item0 false)
                 (read_world store kind w) in
      match snd (fst r) with
      | Some err => (Some (None, Some err), released (snd r))
      | None =>
          if negb (shouldContinueExecution (fst (fst r)))
          then (Some (item (fst (fst r)), None), released (snd r))
          else UpsertInternal_loop fuel store kind newItem (item (fst (fst r)))
                 (released (snd r))
      end
  end.
Proof.
  cbn [UpsertInternal_loop]. unfold bind at 1. rewrite Watch_run.
  destruct (fault (next_env w)); [reflexivity |].
  fold (read_world store kind w).
  destruct (UpsertInternal_tx _ _ _ _ _) as [[vars err] w']. cbn [fst snd].
  destruct err; [reflexivity |]. destruct (negb _); reflexivity.
Qed.

Lemma only_others_read_world (w : World) :
  only_others_wrote w (read_world store kind w).
Proof.
  eapply only_others_trans;
    [apply (only_others_arrive (WATCH (featuresKey store kind))) |].
  by apply only_others_same.
Qed.

Lemma only_others_released (w w' : World) :
  only_others_wrote w w' -> only_others_wrote w (released w').
Proof.
  intros H. eapply only_others_trans; [exact H | by apply only_others_same].
Qed.

(** The closure writes only when it ends with [item = newItem] and a nil
    error. *)
Lemma UpsertInternal_tx_writes (vars : upsert_vars) (w : World) :
  let r := UpsertInternal_tx store kind newItem vars w in
  only_others_wrote w (snd r) \/
  (snd (fst r) = None /\ item (fst (fst r)) = Some newItem /\
   shouldContinueExecution (fst (fst r)) = shouldContinueExecution vars).
Proof.
  cbv zeta. rewrite UpsertInternal_tx_run. cbv zeta.
  destruct (fst (GetInternal _ _ _ _)) as [oldItem [err |]];
    [left; apply only_others_arrive |].
  destruct (is_stale _ _); [left; apply only_others_arrive |].
  destruct (json_Marshal newItem); [| left; apply only_others_arrive].
  destruct (fault (next_env _)); [right; by repeat split |].
  destruct (dirty _); [| right; by repeat split].
  left. cbn [snd]. apply only_others_released.
  eapply only_others_trans; apply only_others_arrive.
Qed.

(** X5. [UpsertInternal] changes the database only when it returns the new
    item with a nil error.  In every other outcome (an error, the stored
    item returned, or the loop still running) the database is what the
    other clients' writes made of it. *)
Theorem UpsertInternal_writes_only_on_commit (fuel : nat) (w : World) :
  fst (UpsertInternal fuel store kind newItem w) <> Some (Some newItem, None) ->
  only_others_wrote w (snd (UpsertInternal fuel store kind newItem w)).
Proof.
  unfold UpsertInternal. generalize (@None VersionedData) as item0. revert w.
  induction fuel as [|fuel IH]; intros w item0 Hres; [apply only_others_refl |].
  rewrite UpsertInternal_loop_run in Hres |- *.
  destruct (fault (next_env w)); [apply only_others_arrive |].
  cbv zeta in Hres |- *.
  pose proof (UpsertInternal_tx_writes (mkVars item0 false) (read_world store kind w))
    as Htx. cbv zeta in Htx.
  destruct (UpsertInternal_tx _ _ _ _ _) as [[vars err] w1]. cbn [fst snd] in *.
  destruct Htx as [Hothers | (-> & Hitem & Hshould)].
  - assert (only_others_wrote w (released w1)) as Hrel.
    { apply only_others_released.
      eapply only_others_trans; [apply only_others_read_world | exact Hothers]. }
    destruct err; [exact Hrel |].
    destruct (negb _); [exact Hrel |].
    eapply only_others_trans; [exact Hrel | by apply IH].
  - cbn [shouldContinueExecution] in Hshould. rewrite Hshould, Hitem in Hres.
    cbn in Hres. congruence.
Qed.

End UpsertSteps.

(** ** What the watch sees *)

Lemma apply_write_unmodified (c : write) (d : gmap string rvalue) :
  snd (apply_write c d) = false -> fst (fst (apply_write c d)) = d.
Proof.
  destruct c as [k | k f v | k v]; cbn.
  - by destruct (d !! k).
  - by destruct (d !! k) as [[s | h] |].
  - discriminate.
Qed.

Lemma apply_writes_cons_modified (c : write) (cs : list write) (d : gmap string rvalue) :
  snd (apply_writes (c :: cs) d)
  = ((if snd (apply_write c d) then [write_key c] else [])
     ++ snd (apply_writes cs (fst (fst (apply_write c d)))))%list.
Proof.
  cbn [apply_writes]. destruct (apply_write c d) as [[d1 e1] m1]. cbn [fst snd].
  destruct (apply_writes cs d1) as [[d2 e2] m2]. by destruct m1.
Qed.

(** A key that the server does not report as modified has kept its value. *)
Lemma apply_writes_untouched (k : string) (cs : list write) :
  forall d : gmap string rvalue,
    existsb (String.eqb k) (snd (apply_writes cs d)) = false ->
    writes_db cs d !! k = d !! k.
Proof.
  induction cs as [|c cs IH]; intros d Hm; [reflexivity |].
  rewrite apply_writes_cons_modified, existsb_app in Hm.
  apply orb_false_iff in Hm as [Hc Hcs].
  rewrite writes_db_cons, IH by exact Hcs.
  destruct (snd (apply_write c d)) eqn:Hmod.
  - cbn in Hc. rewrite orb_false_r in Hc. apply String.eqb_neq in Hc.
    apply apply_write_other. congruence.
  - by rewrite apply_write_unmodified.
Qed.

(** Writes to other keys do not count as modifications of a key. *)
Lemma apply_writes_not_addressed (k : string) (cs : list write) :
  forall d : gmap string rvalue,
    Forall (fun c => write_key c <> k) cs ->
    existsb (String.eqb k) (snd (apply_writes cs d)) = false.
Proof.
  induction cs as [|c cs IH]; intros d Hcs; [reflexivity |].
  apply Forall_cons in Hcs as [Hc Hcs].
  rewrite apply_writes_cons_modified, existsb_app, IH by exact Hcs.
  destruct (snd (apply_write c d)); [| reflexivity].
  cbn. rewrite orb_false_r, orb_false_r. apply String.eqb_neq. congruence.
Qed.

Lemma touches_undisturbed (k : string) (w : World) :
  undisturbed k w -> touches (Some k) (next_modified w) = false.
Proof.
  unfold undisturbed, next_modified, next_env. intros Hw. cbn [touches].
  apply apply_writes_not_addressed.
  destruct (pending w); [constructor | by inversion Hw].
Qed.

Section UpsertOutcomes.

Context {codec : Codec}.

Variables (store : redisFeatureStoreCore) (kind : VersionedDataKind)
          (newItem : VersionedData).

Lemma GetInternal_ok_not_a_string (key : string) (oldItem : option VersionedData)
    (w : World) :
  fst (GetInternal store kind key w) = (oldItem, None) ->
  fault (next_env w) = None /\
  not_a_string (next_db w) (featuresKey store kind) = true.
Proof.
  unfold GetInternal, bind, not_a_string. rewrite HGet_arrive.
  destruct (fault (next_env w)); [discriminate |].
  destruct (next_db w !! featuresKey store kind) as [[s | h] |]; try done.
Qed.

Lemma undisturbed_read_world (k : string) (w : World) :
  undisturbed k w -> undisturbed k (read_world store kind w).
Proof. intros Hw. by apply (arrive_undisturbed k (WATCH (featuresKey store kind))). Qed.

(** X6. When no other client writes to the collection key, there is no
    conflict to retry on: [UpsertInternal] returns from its first
    iteration, whatever else happens (faults included). *)
Theorem UpsertInternal_returns_when_undisturbed (fuel : nat) (w : World) :
  undisturbed (featuresKey store kind) w ->
  is_Some (fst (UpsertInternal (S fuel) store kind newItem w)).
Proof.
  intros Hw. unfold UpsertInternal. rewrite UpsertInternal_loop_run.
  destruct (fault (next_env w)); [by eexists |]. cbv zeta.
  rewrite UpsertInternal_tx_run. cbv zeta.
  destruct (fst (GetInternal _ _ _ _)) as [oldItem [err |]]; [by eexists |].
  destruct (is_stale _ _); [by eexists |].
  destruct (json_Marshal newItem) as [data | jsonErr]; [| by eexists].
  destruct (fault (next_env _)); [by eexists |].
  match goal with
  | |- context [dirty ?x] =>
      change (dirty x) with (modified_since_watch store kind (GetKey newItem) w)
  end.
  unfold modified_since_watch.
  pose proof (undisturbed_read_world _ w Hw) as Hr.
  rewrite (touches_undisturbed _ _ Hr).
  rewrite (touches_undisturbed _ (exec_world store kind (GetKey newItem) w))
    by (by apply arrive_undisturbed).
  by eexists.
Qed.

(** Every iteration returns: no outcome of [Exec] leads to the branch that
    asks for another turn of the loop. *)
Lemma UpsertInternal_first_iteration_returns (fuel : nat) (w : World) :
  is_Some (fst (UpsertInternal (S fuel) store kind newItem w)).
Proof.
  unfold UpsertInternal. rewrite UpsertInternal_loop_run.
  destruct (fault (next_env w)); [by eexists |]. cbv zeta.
  rewrite UpsertInternal_tx_run. cbv zeta.
  destruct (fst (GetInternal _ _ _ _)) as [oldItem [err |]]; [by eexists |].
  destruct (is_stale _ _); [by eexists |].
  destruct (json_Marshal newItem) as [data | jsonErr]; [| by eexists].
  destruct (fault (next_env _)); [by eexists |].
  destruct (dirty _); by eexists.
Qed.

(** X7. Whatever [UpsertInternal] returns is well-formed: an error comes
    with a nil item, and a nil error comes with an item (never nil) whose
    version is at least the new item's. *)
Theorem UpsertInternal_result_not_older (fuel : nat) (w : World)
    (r : option VersionedData * option error) :
  fst (UpsertInternal fuel store kind newItem w) = Some r ->
  upsert_result_ok newItem r.
Proof.
  unfold UpsertInternal. generalize (@None VersionedData) as item0. revert w.
  induction fuel as [|fuel IH]; intros w item0 Hres; [discriminate |].
  rewrite UpsertInternal_loop_run in Hres.
  destruct (fault (next_env w)); [by injection Hres as <- |].
  cbv zeta in Hres. rewrite UpsertInternal_tx_run in Hres. cbv zeta in Hres.
  assert (upsert_result_ok newItem (Some newItem, None)) as Hnew by (cbn; lia).
  destruct (fst (GetInternal _ _ _ _)) as [oldItem [err |]];
    [by injection Hres as <- |].
  destruct (is_stale oldItem newItem) eqn:Hstale.
  { injection Hres as <-. destruct oldItem as [old |]; [| discriminate].
    cbn in Hstale |- *. rewrite Z.geb_leb in Hstale. apply Z.leb_le in Hstale. lia. }
  destruct (json_Marshal newItem) as [data | jsonErr]; [| by injection Hres as <-].
  destruct (fault (next_env _)); [by injection Hres as <- |].
  destruct (dirty _); cbn [fst snd negb shouldContinueExecution item] in Hres;
    by injection Hres as <-.
Qed.

(** X8. An error met before the transaction is sent ends the call at once
    and is returned as it is, with a nil item: the error of WATCH, the
    error of the read (a failed HGET, an error reply, stored bytes that do
    not decode), and the failure to serialize the new item.  In each case
    nothing but WATCH and HGET has been sent. *)
Theorem UpsertInternal_early_errors_returned (fuel : nat) (w : World) :
  let base := featuresKey store kind in
  let field := hashTagKey (GetKey newItem) in
  let r := UpsertInternal (S fuel) store kind newItem w in
  let read := fst (GetInternal store kind (GetKey newItem) (read_world store kind w)) in
  (forall msg, fault (next_env w) = Some msg ->
     fst r = Some (None, Some (redis_error msg)) /\
     sent (snd r) = WATCH base :: sent w) /\
  (fault (next_env w) = None ->
   (forall err, snd read = Some err ->
      fst r = Some (None, Some err) /\
      sent (snd r) = HGET base field :: WATCH base :: sent w) /\
   (forall jsonErr, snd read = None -> is_stale (fst read) newItem = false ->
      json_Marshal newItem = inr jsonErr ->
      fst r = Some (None, Some (fmt_Errorf ("failed to marshal " +:+ KindString kind
                                            +:+ " key " +:+ GetKey newItem +:+ ": "
                                            +:+ error_message jsonErr))) /\
      sent (snd r) = HGET base field :: WATCH base :: sent w)).
Proof.
  cbv zeta. unfold UpsertInternal. rewrite UpsertInternal_loop_run. split.
  - intros msg ->. by split.
  - intros ->. cbv zeta. rewrite UpsertInternal_tx_run. cbv zeta.
    destruct (fst (GetInternal _ _ _ _)) as [oldItem err]. cbn [fst snd]. split.
    + intros err' ->. by split.
    + intros jsonErr -> -> ->. by split.
Qed.

(** X9. When the transaction runs (the new item is due, nobody modified the
    collection key since the WATCH, no fault), [UpsertInternal] returns the
    new item and the database differs from the one the transaction met in
    one place only: the field of the item's key now holds the serialized
    new item.  The other fields of the collection and all other keys are
    as they were, and a read of the key returns what the stored bytes
    decode to. *)
Theorem UpsertInternal_commit_effect (data : string) (fuel : nat) (w : World) :
  let base := featuresKey store kind in
  let field := hashTagKey (GetKey newItem) in
  let met := next_db (exec_world store kind (GetKey newItem) w) in
  let r := UpsertInternal (S fuel) store kind newItem w in
  reaches_exec store kind newItem data w ->
  fault (next_env (exec_world store kind (GetKey newItem) w)) = None ->
  modified_since_watch store kind (GetKey newItem) w = false ->
  fst r = Some (Some newItem, None) /\
  hash_field (db (snd r)) base field = Some data /\
  (forall f, f <> field -> hash_field (db (snd r)) base f = hash_field met base f) /\
  (forall k, k <> base -> db (snd r) !! k = met !! k) /\
  (forall v decoded,
      next_db v = db (snd r) -> fault (next_env v) = None ->
      UnmarshalItem kind data = inl decoded ->
      fst (GetInternal store kind (GetKey newItem) v) = (Some decoded, None)).
Proof.
  intros base field met r Hreach He Hmod. subst r.
  rewrite (UpsertInternal_commit store kind newItem data) by assumption.
  cbv zeta. cbn [fst snd db].
  change (db (arrive _ (exec_world store kind (GetKey newItem) w))) with met.
  assert (not_a_string met base = true) as Hns.
  { destruct Hreach as [_ _ (oldItem & Hget & _) _].
    apply GetInternal_ok_not_a_string in Hget as [_ Hns].
    unfold modified_since_watch in Hmod. apply orb_false_iff in Hmod as [_ Hmod].
    unfold not_a_string in *. subst met. unfold next_db.
    rewrite (apply_writes_untouched base) by exact Hmod. exact Hns. }
  destruct (apply_write_HSET met base field data Hns) as (_ & _ & _ & Hf).
  unfold staged. fold base field. rewrite writes_db_cons.
  change (writes_db [] ?d) with d.
  assert (hash_field (fst (fst (apply_write (HSET base field data) met))) base field
          = Some data) as Hfield.
  { by rewrite Hf, String.eqb_refl. }
  split; [reflexivity |]. split; [exact Hfield |]. split; [| split].
  - intros f Hne. rewrite Hf.
    destruct (String.eqb_spec field f); [congruence | reflexivity].
  - intros k Hne. apply apply_write_other. cbn. congruence.
  - intros v decoded Hv Hfault Hdec.
    apply (GetInternal_found store kind (GetKey newItem) data); [exact Hfault | | exact Hdec].
    rewrite Hv. exact Hfield.
Qed.

End UpsertOutcomes.

(** ** [InitInternal], key by key *)

Section InitEffects.

Context {codec : Codec}.

Variable store : redisFeatureStoreCore.

(** The value of the key of a collection under its HSETs. *)
Lemma item_writes_lookup (base : string) (items : list (string * VersionedData)) :
  forall (d : gmap string rvalue) (h : option (gmap string string)),
    d !! base = RHash <$> h ->
    writes_db (item_writes base items) d !! base = RHash <$> after_hsets items h.
Proof.
  induction items as [|[k v] rest IH]; intros d h Hd; [exact Hd |].
  cbn [item_writes after_hsets]. destruct (json_Marshal v) as [data | e]; [| by apply IH].
  rewrite writes_db_cons. apply IH. cbn [apply_write]. rewrite Hd.
  destruct h as [h |]; cbn; by rewrite lookup_insert_eq.
Qed.

Lemma kind_writes_lookup (ki : VersionedDataKind * list (string * VersionedData))
    (d : gmap string rvalue) :
  writes_db (kind_writes store ki) d !! featuresKey store (fst ki)
  = RHash <$> after_hsets (snd ki) None.
Proof.
  unfold kind_writes. rewrite writes_db_cons. apply item_writes_lookup.
  by destruct (apply_write_DEL d (featuresKey store (fst ki))) as [_ ->].
Qed.

Lemma init_writes_lookup_kind
    (allData : list (VersionedDataKind * list (string * VersionedData)))
    (kind : VersionedDataKind) (items : list (string * VersionedData))
    (d : gmap string rvalue) :
  NoDup ((fun ki => GetNamespace (fst ki)) <$> allData) ->
  GetNamespace kind <> "$inited" ->
  (kind, items) ∈ allData ->
  writes_db (init_writes store allData) d !! featuresKey store kind
  = RHash <$> after_hsets items None.
Proof.
  intros Hnd Hns Hin.
  apply list_elem_of_split in Hin as (l1 & l2 & ->).
  rewrite fmap_app, fmap_cons in Hnd. cbn [fst] in Hnd.
  apply NoDup_app in Hnd as (_ & _ & Hnd). apply NoDup_cons in Hnd as [Hnotin _].
  unfold init_writes. rewrite flat_map_app. cbn [flat_map].
  rewrite !writes_db_app.
  rewrite writes_db_other.
  2: { constructor; [| constructor]. cbn. intros Heq. symmetry in Heq.
       by apply featuresKey_initedKey in Heq. }
  rewrite writes_db_other.
  2: { apply flat_map_kind_writes_keys.
       apply Forall_forall. intros ki Hki Heq. apply featuresKey_inj in Heq.
       apply Hnotin. apply list_elem_of_fmap. exists ki. by split. }
  apply (kind_writes_lookup (kind, items)).
Qed.

Lemma init_writes_lookup_other
    (allData : list (VersionedDataKind * list (string * VersionedData)))
    (d : gmap string rvalue) (k : string) :
  k <> initedKey store ->
  Forall (fun ki => featuresKey store (fst ki) <> k) allData ->
  writes_db (init_writes store allData) d !! k = d !! k.
Proof.
  intros Hk Hall. unfold init_writes. apply writes_db_other.
  apply Forall_app. split; [by apply flat_map_kind_writes_keys |].
  constructor; [| constructor]. cbn. congruence.
Qed.

(** The world after an [InitInternal] whose pipeline went through. *)
Lemma InitInternal_done
    (allData : list (VersionedDataKind * list (string * VersionedData))) (w : World) :
  serializable allData = true ->
  fault (next_env w) = None ->
  fst (InitInternal store allData w) = None /\
  db (snd (InitInternal store allData w))
  = writes_db (init_writes store allData) (next_db w).
Proof.
  intros Hser Hf. rewrite InitInternal_run, Hser, Pipeline_Exec_run, Hf.
  cbn -[arrive init_writes]. by rewrite init_writes_err.
Qed.

Lemma after_hsets_fields (items : list (string * VersionedData)) :
  forall (h : option (gmap string string)) (f : string),
    default ∅ (after_hsets items h) !! f
    = match fields_of items f with
      | Some data => Some data
      | None => default ∅ h !! f
      end.
Proof.
  induction items as [|[k v] rest IH]; intros h f; [reflexivity |].
  cbn [after_hsets fields_of]. destruct (json_Marshal v) as [data | e].
  - rewrite IH. destruct (fields_of rest f); [reflexivity |]. cbn [from_option id].
    destruct (String.eqb_spec (hashTagKey k) f) as [-> | Hne].
    + by rewrite lookup_insert_eq.
    + by rewrite lookup_insert_ne.
  - rewrite IH. destruct (fields_of rest f); [reflexivity |].
    by destruct (String.eqb _ _).
Qed.

(** X10. After an [InitInternal] that went through, a read of a key of a
    given kind returns what the bytes stored for it decode to, and a read
    of a key the collection was not given returns nil with a nil error,
    even if the key was stored before: what [InitInternal] stores is what
    [GetInternal] finds. *)
Theorem InitInternal_then_GetInternal
    (allData : list (VersionedDataKind * list (string * VersionedData)))
    (kind : VersionedDataKind) (items : list (string * VersionedData))
    (w v : World) (key : string) :
  NoDup ((fun ki => GetNamespace (fst ki)) <$> allData) ->
  GetNamespace kind <> "$inited" ->
  (kind, items) ∈ allData ->
  serializable allData = true ->
  fault (next_env w) = None ->
  next_db v = db (snd (InitInternal store allData w)) ->
  fault (next_env v) = None ->
  fst (GetInternal store kind key v) =
  match fields_of items (hashTagKey key) with
  | None => (None, None)
  | Some data =>
      match UnmarshalItem kind data with
      | inl decoded => (Some decoded, None)
      | inr jsonErr =>
          (None, Some (fmt_Errorf ("failed to unmarshal " +:+ KindString kind +:+ " key "
                                   +:+ key +:+ ": " +:+ error_message jsonErr)))
      end
  end.
Proof.
  intros Hnd Hns Hin Hser Hf Hv Hfv.
  destruct (InitInternal_done allData w Hser Hf) as [_ Hdb].
  unfold GetInternal, bind. rewrite HGet_arrive, Hfv, Hv, Hdb.
  rewrite (init_writes_lookup_kind allData kind items) by assumption.
  pose proof (after_hsets_fields items None (hashTagKey key)) as Hfields.
  destruct (after_hsets items None) as [h |]; cbn [from_option id fmap option_fmap option_map]
    in Hfields |- *; rewrite ?lookup_empty in Hfields.
  - rewrite Hfields. destruct (fields_of items (hashTagKey key)); [| reflexivity].
    cbn. by destruct (UnmarshalItem kind s).
  - by destruct (fields_of items (hashTagKey key)).
Qed.

(** X11. An [InitInternal] that went through leaves every key alone that
    is neither the marker nor the key of a given kind (collections of kinds
    that were not given keep their items), and a kind given with no items
    has its key removed. *)
Theorem InitInternal_touches_only_given_kinds
    (allData : list (VersionedDataKind * list (string * VersionedData))) (w : World) :
  serializable allData = true ->
  fault (next_env w) = None ->
  let d' := db (snd (InitInternal store allData w)) in
  (forall k, k <> initedKey store ->
             Forall (fun ki => featuresKey store (fst ki) <> k) allData ->
             d' !! k = next_db w !! k) /\
  (NoDup ((fun ki => GetNamespace (fst ki)) <$> allData) ->
   forall kind, GetNamespace kind <> "$inited" -> (kind, []) ∈ allData ->
                d' !! featuresKey store kind = None).
Proof.
  intros Hser Hf d'. subst d'.
  destruct (InitInternal_done allData w Hser Hf) as [_ ->]. split.
  - intros k Hk Hall. by apply init_writes_lookup_other.
  - intros Hnd kind Hns Hin.
    by rewrite (init_writes_lookup_kind allData kind []).
Qed.

End InitEffects.

(** ** [GetAllInternal] at the edges *)

Section GetAllEdges.

Context {codec : Codec}.

Lemma GetAllInternal_range_undecodable (kind : VersionedDataKind) (err : option error) :
  forall (l : list (string * string)) (acc : gmap string VersionedData),
    (exists f data jsonErr, (f, data) ∈ l /\ UnmarshalItem kind data = inr jsonErr) ->
    GetAllInternal_range kind err l acc
    = (None, Some (fmt_Errorf ("failed to unmarshal " +:+ KindString kind +:+ ": "
                               +:+ fmt_error err))).
Proof.
  induction l as [|[f0 d0] rest IH]; intros acc (f & data & jsonErr & Hin & Hdec).
  - by inversion Hin.
  - cbn [GetAllInternal_range].
    destruct (UnmarshalItem kind d0) as [it | e] eqn:Hd0; [| reflexivity].
    apply IH. apply elem_of_cons in Hin as [[= -> ->] | Hin]; [congruence |].
    by exists f, data, jsonErr.
Qed.

(** X12. [GetAllInternal] only reads: it sends one HGETALL.  A failed
    round-trip and a collection key that holds a string are returned as
    errors, an absent collection is an empty map with a nil error, and if
    any one stored value does not decode the whole call fails, with a
    message that names the kind but not the cause (it formats the nil
    error of HGETALL). *)
Theorem GetAllInternal_edge_cases (store : redisFeatureStoreCore)
    (kind : VersionedDataKind) (w : World) :
  let base := featuresKey store kind in
  let r := GetAllInternal store kind w in
  snd r = arrive (HGETALL base) w /\
  (forall msg, fault (next_env w) = Some msg ->
     fst r = (None, Some (redis_error msg))) /\
  (fault (next_env w) = None ->
   (next_db w !! base = None -> fst r = (Some ∅, None)) /\
   (not_a_string (next_db w) base = false ->
    fst r = (None, Some (redis_error WRONGTYPE))) /\
   (forall h f data jsonErr,
      next_db w !! base = Some (RHash h) ->
      h !! f = Some data -> UnmarshalItem kind data = inr jsonErr ->
      fst r = (None, Some (fmt_Errorf ("failed to unmarshal " +:+ KindString kind
                                       +:+ ": %!s(<nil>)"))))).
Proof.
  cbv zeta. split; [apply GetAllInternal_arrive |].
  unfold GetAllInternal, HGetAll, bind. rewrite round_trip_arrive.
  split; [by intros msg -> |]. intros ->.
  unfold get_db, not_a_string. cbn -[arrive].
  change (db (arrive (HGETALL (featuresKey store kind)) w)) with (next_db w).
  split; [| split].
  - intros ->. cbn. by rewrite map_to_list_empty.
  - intros Hs. by destruct (next_db w !! featuresKey store kind) as [[s | h] |].
  - intros h f data jsonErr -> Hf Hdec. cbn.
    apply (GetAllInternal_range_undecodable kind None).
    exists f, data, jsonErr. split; [by apply elem_of_map_to_list | exact Hdec].
Qed.

End GetAllEdges.

(** ** Upserts with nobody else around *)

Lemma quiet_next_env (w : World) : pending w = [] -> next_env w = quiet.
Proof. unfold next_env. by intros ->. Qed.

Lemma quiet_arrive (c : command) (w : World) :
  pending w = [] ->
  arrive c w = mkWorld (db w) (watched w) (dirty w) (c :: sent w) [].
Proof.
  intros Hp. unfold arrive, next_db, next_modified, next_env. rewrite Hp. cbn.
  destruct (watched w); cbn; by rewrite orb_false_r.
Qed.

Section QuietUpserts.

Context {codec : Codec}.

Variables (store : redisFeatureStoreCore) (kind : VersionedDataKind).

Lemma GetInternal_value (key : string) (v : World) :
  fault (next_env v) = None ->
  not_a_string (next_db v) (featuresKey store kind) = true ->
  fst (GetInternal store kind key v) =
  match hash_field (next_db v) (featuresKey store kind) (hashTagKey key) with
  | None => (None, None)
  | Some data =>
      match UnmarshalItem kind data with
      | inl it => (Some it, None)
      | inr jsonErr =>
          (None, Some (fmt_Errorf ("failed to unmarshal " +:+ KindString kind +:+ " key "
                                   +:+ key +:+ ": " +:+ error_message jsonErr)))
      end
  end.
Proof.
  intros Hf Hns. unfold GetInternal, bind, hash_field, not_a_string in *.
  rewrite HGet_arrive, Hf.
  destruct (next_db v !! featuresKey store kind) as [[s | h] |]; try done.
  destruct (h !! hashTagKey key); [| reflexivity].
  cbn. by destruct (UnmarshalItem kind s).
Qed.

Lemma quiet_read_world (w : World) :
  pending w = [] ->
  read_world store kind w
  = mkWorld (db w) (Some (featuresKey store kind)) false
            (WATCH (featuresKey store kind) :: sent w) [].
Proof. intros Hp. unfold read_world, watching. by rewrite quiet_arrive. Qed.

(** An upsert that is due, made with nobody else around: it commits. *)
Lemma quiet_upsert_commit (x : VersionedData) (dx : string) (fuel : nat) (w : World) :
  let base := featuresKey store kind in
  let field := hashTagKey (GetKey x) in
  pending w = [] ->
  not_a_string (db w) base = true ->
  older_or_absent kind (GetVersion x) (hash_field (db w) base field) ->
  json_Marshal x = inl dx ->
  UpsertInternal (S fuel) store kind x w
  = (Some (Some x, None),
     mkWorld (hset base field dx (db w)) None false
             (MULTI_EXEC (staged store kind (GetKey x) dx)
                :: HGET base field :: WATCH base :: sent w) []).
Proof.
  intros base field Hp Hns Hold Hm.
  unfold UpsertInternal. rewrite UpsertInternal_loop_run, (quiet_next_env w Hp).
  cbn [fault quiet]. cbv zeta. rewrite UpsertInternal_tx_run. cbv zeta.
  rewrite (quiet_read_world w Hp).
  set (rw := mkWorld (db w) (Some (featuresKey store kind)) false
                     (WATCH (featuresKey store kind) :: sent w) []).
  assert (pending rw = []) as Hprw by reflexivity.
  assert (next_db rw = db w) as Hdb by reflexivity.
  rewrite (GetInternal_value (GetKey x) rw) by (rewrite ?Hdb; done).
  rewrite Hdb. fold base field.
  assert (exists oldItem,
             match hash_field (db w) base field with
             | Some data =>
                 match UnmarshalItem kind data with
                 | inl it => (Some it, None)
                 | inr jsonErr =>
                     (None, Some (fmt_Errorf ("failed to unmarshal " +:+ KindString kind
                                              +:+ " key " +:+ GetKey x +:+ ": "
                                              +:+ error_message jsonErr)))
                 end
             | None => (None, None)
             end = (oldItem, None) /\ is_stale oldItem x = false) as (oldItem & -> & ->).
  { destruct (hash_field (db w) base field) as [data |].
    - destruct Hold as (old & -> & Hlt). exists (Some old). split; [reflexivity |].
      cbn. rewrite Z.geb_leb. apply Z.leb_gt. lia.
    - by exists None. }
  rewrite Hm. rewrite !quiet_arrive by (rewrite ?quiet_arrive; done).
  cbn [fault next_env hd pending quiet dirty fst snd negb shouldContinueExecution
       item db sent watched rw released].
  unfold staged. rewrite writes_db_cons. reflexivity.
Qed.

(** An upsert that is not due, made with nobody else around: the stored
    item is returned and the database stays as it is. *)
Lemma quiet_upsert_stale (x old : VersionedData) (stored : string) (fuel : nat)
    (w : World) :
  let base := featuresKey store kind in
  let field := hashTagKey (GetKey x) in
  pending w = [] ->
  hash_field (db w) base field = Some stored ->
  UnmarshalItem kind stored = inl old ->
  GetVersion x <= GetVersion old ->
  UpsertInternal (S fuel) store kind x w
  = (Some (Some old, None),
     mkWorld (db w) None false (HGET base field :: WATCH base :: sent w) []).
Proof.
  intros base field Hp Hs Hdec Hle.
  unfold UpsertInternal. rewrite UpsertInternal_loop_run, (quiet_next_env w Hp).
  cbn [fault quiet]. cbv zeta.
  rewrite (quiet_read_world w Hp).
  rewrite (UpsertInternal_tx_stale store kind x old); [| | exact Hle].
  - rewrite quiet_arrive by reflexivity. reflexivity.
  - by apply (GetInternal_found store kind (GetKey x) stored).
Qed.

End QuietUpserts.

Lemma hset_hset (k f v1 v2 : string) (d : gmap string rvalue) :
  not_a_string d k = true -> hset k f v2 (hset k f v1 d) = hset k f v2 d.
Proof.
  unfold not_a_string, hset. cbn.
  destruct (d !! k) as [[s | h] |] eqn:Hd; intros Hns; try discriminate; cbn;
    rewrite lookup_insert_eq; cbn; rewrite insert_insert_eq; do 2 f_equal.
  - apply insert_insert_eq.
  - apply insert_singleton_eq.
Qed.

Lemma hset_field (k f v : string) (d : gmap string rvalue) :
  not_a_string d k = true ->
  not_a_string (hset k f v d) k = true /\ hash_field (hset k f v d) k f = Some v.
Proof.
  intros Hns. destruct (apply_write_HSET d k f v Hns) as (_ & Hns' & _ & Hf).
  split; [exact Hns' |]. unfold hset. by rewrite Hf, String.eqb_refl.
Qed.

Section Convergence.

Context {codec : Codec}.

Variables (store : redisFeatureStoreCore) (kind : VersionedDataKind).

(** X13. Two upserts of one key with different versions, made one after
    the other with nobody else around, leave the same database in either
    order: the field holds the item of the higher version.  Made second,
    the older item is not written and the call returns the newer one. *)
Theorem UpsertInternal_highest_version_wins (a b : VersionedData) (da db_ : string)
    (fuel : nat) (w : World) :
  let base := featuresKey store kind in
  let field := hashTagKey (GetKey a) in
  let a_then_b := UpsertInternal (S fuel) store kind b
                    (snd (UpsertInternal (S fuel) store kind a w)) in
  let b_then_a := UpsertInternal (S fuel) store kind a
                    (snd (UpsertInternal (S fuel) store kind b w)) in
  pending w = [] ->
  not_a_string (db w) base = true ->
  older_or_absent kind (GetVersion a) (hash_field (db w) base field) ->
  GetKey a = GetKey b ->
  GetVersion a < GetVersion b ->
  json_Marshal a = inl da -> UnmarshalItem kind da = inl a ->
  json_Marshal b = inl db_ -> UnmarshalItem kind db_ = inl b ->
  db (snd a_then_b) = db (snd b_then_a) /\
  hash_field (db (snd a_then_b)) base field = Some db_ /\
  fst a_then_b = Some (Some b, None) /\
  fst b_then_a = Some (Some b, None).
Proof.
  intros base field a_then_b b_then_a Hp Hns Hold Hkey Hlt Hma Hua Hmb Hub.
  subst a_then_b b_then_a.
  destruct (hset_field base field da (db w) Hns) as [Hns_a Hf_a].
  destruct (hset_field base field db_ (db w) Hns) as [Hns_b Hf_b].
  (* a, then b *)
  rewrite (quiet_upsert_commit store kind a da fuel w) by assumption.
  cbn [snd].
  rewrite (quiet_upsert_commit store kind b db_ fuel); cycle 1.
  { reflexivity. }
  { exact Hns_a. }
  { cbn [db]. rewrite <- Hkey. fold base field. rewrite Hf_a.
    exists a. by split. }
  { exact Hmb. }
  (* b, then a *)
  rewrite (quiet_upsert_commit store kind b db_ fuel w); cycle 1.
  { exact Hp. }
  { exact Hns. }
  { rewrite <- Hkey. fold base field.
    destruct (hash_field (db w) base field); [| exact I].
    destruct Hold as (old & Hdec & Hver). exists old. split; [exact Hdec | lia]. }
  { exact Hmb. }
  cbn [snd].
  rewrite (quiet_upsert_stale store kind a b db_ fuel); cycle 1.
  { reflexivity. }
  { cbn [db]. rewrite <- Hkey. exact Hf_b. }
  { exact Hub. }
  { lia. }
  cbn [fst snd db]. rewrite <- Hkey. fold base field.
  rewrite hset_hset by exact Hns. by repeat split.
Qed.

End Convergence.

(** ** [InitInternal] and the order of Go's [range] *)

Section InitOrder.

Context {codec : Codec}.

Variable store : redisFeatureStoreCore.

Lemma serializable_items
    (allData : list (VersionedDataKind * list (string * VersionedData)))
    (kind : VersionedDataKind) (items : list (string * VersionedData)) :
  serializable allData = true ->
  (kind, items) ∈ allData ->
  forall k v, (k, v) ∈ items -> exists data, json_Marshal v = inl data.
Proof.
  unfold serializable. rewrite forallb_forall. intros Hall Hin k v Hkv.
  apply list_elem_of_In in Hin. specialize (Hall _ Hin). cbn in Hall.
  rewrite forallb_forall in Hall. apply list_elem_of_In in Hkv.
  specialize (Hall _ Hkv). cbn in Hall.
  destruct (json_Marshal v) as [data | e]; [by exists data | discriminate].
Qed.

(** With distinct keys, the field a collection supplies is read off the
    map it lists. *)
Lemma fields_of_view (items : list (string * VersionedData)) (f : string) :
  NoDup (items.*1) ->
  forall data,
  fields_of items f = Some data <->
  exists k v, (list_to_map items : gmap string VersionedData) !! k = Some v /\
              f = hashTagKey k /\ json_Marshal v = inl data.
Proof.
  induction items as [|[k0 v0] rest IH]; intros Hnd data.
  - cbn. split; [discriminate |]. intros (k & v & Hl & _). by rewrite lookup_empty in Hl.
  - cbn [fmap list_fmap fst] in Hnd. apply NoDup_cons in Hnd as [Hnotin Hnd].
    specialize (IH Hnd). cbn [fields_of list_to_map foldr uncurry].
    assert (forall k v, (list_to_map rest : gmap string VersionedData) !! k = Some v ->
                        k <> k0) as Hrest.
    { intros k v Hl ->. apply Hnotin. apply elem_of_list_to_map_2 in Hl.
      apply list_elem_of_fmap. by exists (k0, v). }
    split.
    + destruct (fields_of rest f) as [d |] eqn:Hr.
      * intros [= <-]. destruct (proj1 (IH d) eq_refl) as (k & v & Hl & Hf & Hm).
        exists k, v. split; [| by split].
        rewrite lookup_insert_ne; [exact Hl |]. intros Heq. by apply (Hrest k v).
      * destruct (String.eqb_spec (hashTagKey k0) f) as [<- | Hne]; [| discriminate].
        destruct (json_Marshal v0) as [d |] eqn:Hm0; [| discriminate].
        intros [= <-]. exists k0, v0. by rewrite lookup_insert_eq.
    + intros (k & v & Hl & -> & Hm).
      destruct (decide (k = k0)) as [-> | Hne].
      * rewrite lookup_insert_eq in Hl. injection Hl as <-.
        destruct (fields_of rest (hashTagKey k0)) as [d |] eqn:Hr.
        -- destruct (proj1 (IH d) eq_refl) as (k' & v' & Hl' & Hf & _).
           apply hashTagKey_inj in Hf. subst k'. by destruct (Hrest k0 v').
        -- by rewrite String.eqb_refl, Hm.
      * rewrite lookup_insert_ne in Hl by done.
        assert (fields_of rest (hashTagKey k) = Some data) as ->; [| reflexivity].
        apply IH. by exists k, v.
Qed.

Lemma after_hsets_Some (items : list (string * VersionedData)) :
  forall h : gmap string string, is_Some (after_hsets items (Some h)).
Proof.
  induction items as [|[k v] rest IH]; intros h; cbn [after_hsets]; [by eexists |].
  destruct (json_Marshal v); apply IH.
Qed.

(** Two listings of one collection leave the same hash. *)
Lemma after_hsets_view (items1 items2 : list (string * VersionedData)) :
  NoDup (items1.*1) -> NoDup (items2.*1) ->
  (forall k v, (k, v) ∈ items1 -> exists data, json_Marshal v = inl data) ->
  (forall k v, (k, v) ∈ items2 -> exists data, json_Marshal v = inl data) ->
  (list_to_map items1 : gmap string VersionedData) = list_to_map items2 ->
  after_hsets items1 None = after_hsets items2 None.
Proof.
  intros Hnd1 Hnd2 Hm1 Hm2 Hview.
  assert (forall f, fields_of items1 f = fields_of items2 f) as Hfields.
  { intros f. apply option_eq. intros data.
    rewrite !fields_of_view by assumption. by rewrite Hview. }
  assert (forall items : list (string * VersionedData),
            (forall k v, (k, v) ∈ items -> exists data, json_Marshal v = inl data) ->
            items <> [] -> is_Some (after_hsets items None)) as Hsome.
  { intros [|[k v] rest] Hm Hne; [done |]. cbn [after_hsets].
    destruct (Hm k v (list_elem_of_here _ _)) as [data ->]. apply after_hsets_Some. }
  destruct items1 as [|kv1 rest1], items2 as [|kv2 rest2].
  - reflexivity.
  - exfalso. destruct kv2 as [k v]. cbn in Hview. symmetry in Hview.
    by apply insert_non_empty in Hview.
  - exfalso. destruct kv1 as [k v]. cbn in Hview.
    by apply insert_non_empty in Hview.
  - destruct (Hsome (kv1 :: rest1) Hm1) as [h1 H1]; [done |].
    destruct (Hsome (kv2 :: rest2) Hm2) as [h2 H2]; [done |].
    rewrite H1, H2. f_equal. apply map_eq. intros f.
    pose proof (after_hsets_fields (kv1 :: rest1) None f) as Hf1.
    pose proof (after_hsets_fields (kv2 :: rest2) None f) as Hf2.
    rewrite H1 in Hf1. rewrite H2 in Hf2. cbn [from_option id] in Hf1, Hf2.
    by rewrite Hf1, Hf2, Hfields.
Qed.

(** A kind of one listing is found, with the same collection, in any
    listing of the same map. *)
Lemma data_view_kind
    (d1 d2 : list (VersionedDataKind * list (string * VersionedData)))
    (kind : VersionedDataKind) (items : list (string * VersionedData)) :
  NoDup ((fun ki => GetNamespace (fst ki)) <$> d1) ->
  data_view d1 = data_view d2 ->
  (kind, items) ∈ d1 ->
  exists kind2 items2,
    (kind2, items2) ∈ d2 /\ GetNamespace kind2 = GetNamespace kind /\
    (list_to_map items2 : gmap string VersionedData) = list_to_map items.
Proof.
  intros Hnd Hview Hin.
  assert (data_view d1 !! GetNamespace kind = Some (list_to_map items)) as Hl.
  { unfold data_view. apply elem_of_list_to_map_1.
    - by rewrite <- list_fmap_compose.
    - apply list_elem_of_fmap. by exists (kind, items). }
  rewrite Hview in Hl. unfold data_view in Hl. apply elem_of_list_to_map_2 in Hl.
  apply list_elem_of_fmap in Hl as ([kind2 items2] & [= Hns Hitems] & Hin2).
  by exists kind2, items2.
Qed.

Lemma featuresKey_namespace (k1 k2 : VersionedDataKind) :
  GetNamespace k1 = GetNamespace k2 -> featuresKey store k1 = featuresKey store k2.
Proof. unfold featuresKey. by intros ->. Qed.

(** The database [init_writes] leaves is decided, key by key, by the map
    that is listed. *)
Lemma init_writes_view
    (d1 d2 : list (VersionedDataKind * list (string * VersionedData)))
    (d : gmap string rvalue) (k : string) :
  faithful_listing d1 -> faithful_listing d2 ->
  serializable d1 = true -> serializable d2 = true ->
  data_view d1 = data_view d2 ->
  k ∈ (fun ki => featuresKey store (fst ki)) <$> d1 ->
  writes_db (init_writes store d1) d !! k = writes_db (init_writes store d2) d !! k /\
  k ∈ (fun ki => featuresKey store (fst ki)) <$> d2.
Proof.
  intros (Hnd1 & Hns1 & Hk1) (Hnd2 & Hns2 & Hk2) Hs1 Hs2 Hview Hin.
  apply list_elem_of_fmap in Hin as ([kind items] & -> & Hin). cbn [fst].
  destruct (data_view_kind d1 d2 kind items Hnd1 Hview Hin)
    as (kind2 & items2 & Hin2 & Hns & Hitems).
  rewrite Forall_forall in Hns1, Hns2, Hk1, Hk2.
  pose proof (Hns1 _ Hin) as Hm1. pose proof (Hns2 _ Hin2) as Hm2. cbn [fst] in Hm1, Hm2.
  rewrite (init_writes_lookup_kind store d1 kind items) by assumption.
  rewrite (featuresKey_namespace kind kind2) by done.
  rewrite (init_writes_lookup_kind store d2 kind2 items2) by assumption.
  split.
  - f_equal. apply after_hsets_view.
    + exact (Hk1 _ Hin).
    + exact (Hk2 _ Hin2).
    + by apply (serializable_items d1 kind).
    + by apply (serializable_items d2 kind2).
    + done.
  - apply list_elem_of_fmap. by exists (kind2, items2).
Qed.

(** X14. The effect of [InitInternal] does not depend on the order in which
    Go's [range] visits the two levels of maps: two listings of the same
    map (kinds by namespace, items by key) give the same result and leave
    the same database. *)
Theorem InitInternal_order_independent
    (d1 d2 : list (VersionedDataKind * list (string * VersionedData))) (w : World) :
  faithful_listing d1 -> faithful_listing d2 ->
  serializable d1 = true -> serializable d2 = true ->
  data_view d1 = data_view d2 ->
  fault (next_env w) = None ->
  fst (InitInternal store d1 w) = fst (InitInternal store d2 w) /\
  db (snd (InitInternal store d1 w)) = db (snd (InitInternal store d2 w)).
Proof.
  intros Hl1 Hl2 Hs1 Hs2 Hview Hf.
  destruct (InitInternal_done store d1 w Hs1 Hf) as [-> ->].
  destruct (InitInternal_done store d2 w Hs2 Hf) as [-> ->].
  split; [reflexivity |]. apply map_eq. intros k.
  destruct (decide (k = initedKey store)) as [-> | Hk];
    [by rewrite !init_writes_marker |].
  destruct (decide (k ∈ (fun ki => featuresKey store (fst ki)) <$> d1)) as [Hin1 | Hout1].
  { by destruct (init_writes_view d1 d2 (next_db w) k). }
  destruct (decide (k ∈ (fun ki => featuresKey store (fst ki)) <$> d2)) as [Hin2 | Hout2].
  { destruct (init_writes_view d2 d1 (next_db w) k) as [_ Hin1]; by auto. }
  rewrite !init_writes_lookup_other; [reflexivity | exact Hk | | exact Hk |];
    apply Forall_forall; intros ki Hki Heq.
  - apply Hout2. apply list_elem_of_fmap. by exists ki.
  - apply Hout1. apply list_elem_of_fmap. by exists ki.
Qed.

End InitOrder.

(** ** The further properties on concrete data *)

(** An upsert of version 1 over a stored version 3 writes nothing. *)
Lemma UpsertInternal_writes_only_on_commit_witness :
  only_others_wrote (stored_world 3)
    (snd (@UpsertInternal byte_codec 1 default_store features (flagA 1) (stored_world 3))).
Proof.
  apply (@UpsertInternal_writes_only_on_commit byte_codec default_store features
           (flagA 1) 1 (stored_world 3)).
  vm_compute. discriminate.
Defined.

(** Nobody else writes in [empty_world]. *)
Lemma UpsertInternal_returns_when_undisturbed_witness :
  is_Some (fst (@UpsertInternal byte_codec 1 default_store features (flagA 1) empty_world)).
Proof.
  apply (@UpsertInternal_returns_when_undisturbed byte_codec default_store features
           (flagA 1) 0 empty_world).
  constructor.
Defined.

(** A stored version 3 is returned to an upsert of version 1. *)
Lemma UpsertInternal_result_not_older_witness :
  upsert_result_ok (flagA 1) (Some (flagA 3), None).
Proof.
  apply (@UpsertInternal_result_not_older byte_codec default_store features (flagA 1)
           1 (stored_world 3)).
  vm_compute. reflexivity.
Defined.

(** The connection is down at the WATCH. *)
Lemma UpsertInternal_early_errors_returned_witness :
  fst (@UpsertInternal byte_codec 1 default_store features (flagA 1) unreachable_world)
  = Some (None, Some (redis_error "dial tcp 10.0.0.7:6379: i/o timeout")).
Proof.
  apply (proj1 (@UpsertInternal_early_errors_returned byte_codec default_store features
                  (flagA 1) 0 unreachable_world)).
  reflexivity.
Defined.

Lemma empty_world_reaches_exec :
  @reaches_exec byte_codec default_store features (flagA 2) (bytes_of (flagA 2))
    empty_world.
Proof.
  split; try (vm_compute; reflexivity). exists None. split; vm_compute; reflexivity.
Defined.

(** Version 2 of [flagA] committed into an empty database. *)
Lemma UpsertInternal_commit_effect_witness :
  let r := @UpsertInternal byte_codec 1 default_store features (flagA 2) empty_world in
  fst r = Some (Some (flagA 2), None) /\
  hash_field (db (snd r)) (featuresKey default_store features) (hashTagKey "flagA")
  = Some (bytes_of (flagA 2)).
Proof.
  destruct (@UpsertInternal_commit_effect byte_codec default_store features (flagA 2)
              (bytes_of (flagA 2)) 0 empty_world empty_world_reaches_exec eq_refl eq_refl)
    as (Hres & Hfield & _).
  split; [exact Hres | exact Hfield].
Defined.

Lemma two_collections_faithful : faithful_listing two_collections.
Proof.
  split; [| split].
  - apply (bool_decide_unpack _). vm_compute. exact I.
  - repeat constructor; discriminate.
  - repeat (apply Forall_cons_2 || apply Forall_nil_2);
      apply (bool_decide_unpack _); vm_compute; exact I.
Defined.

Lemma two_collections_reordered_faithful : faithful_listing two_collections_reordered.
Proof.
  split; [| split].
  - apply (bool_decide_unpack _). vm_compute. exact I.
  - repeat constructor; discriminate.
  - repeat (apply Forall_cons_2 || apply Forall_nil_2);
      apply (bool_decide_unpack _); vm_compute; exact I.
Defined.

(** After [two_collections], [flagA] reads as version 2 (it was stored as
    version 7 before). *)
Lemma InitInternal_then_GetInternal_witness :
  fst (@GetInternal byte_codec default_store features "flagA" initialized_world)
  = (Some (flagA 2), None).
Proof.
  rewrite (@InitInternal_then_GetInternal byte_codec default_store two_collections
             features [("flagA", flagA 2); ("flagB", flagB 1)] (stored_world 7)
             initialized_world "flagA").
  - reflexivity.
  - exact (proj1 two_collections_faithful).
  - discriminate.
  - apply list_elem_of_here.
  - reflexivity.
  - reflexivity.
  - vm_compute. reflexivity.
  - reflexivity.
Defined.

(** Writing the segments collection alone leaves the features collection. *)
Lemma InitInternal_touches_only_given_kinds_witness :
  db (snd (@InitInternal byte_codec default_store [(segments, [])] (stored_world 7)))
  !! featuresKey default_store features
  = db (stored_world 7) !! featuresKey default_store features.
Proof.
  destruct (@InitInternal_touches_only_given_kinds byte_codec default_store
              [(segments, [])] (stored_world 7) eq_refl eq_refl) as [Hframe _].
  apply Hframe.
  - apply String.eqb_neq. reflexivity.
  - repeat constructor. apply String.eqb_neq. reflexivity.
Defined.

(** An absent collection, and a connection that is down. *)
Lemma GetAllInternal_edge_cases_witness :
  fst (@GetAllInternal byte_codec default_store segments (stored_world 1)) = (Some ∅, None) /\
  fst (@GetAllInternal byte_codec default_store features unreachable_world)
  = (None, Some (redis_error "dial tcp 10.0.0.7:6379: i/o timeout")).
Proof.
  split.
  - apply (proj1 (proj2 (proj2 (@GetAllInternal_edge_cases byte_codec default_store
                                  segments (stored_world 1))) eq_refl)).
    vm_compute. reflexivity.
  - apply (proj1 (proj2 (@GetAllInternal_edge_cases byte_codec default_store features
                           unreachable_world))).
    reflexivity.
Defined.

(** Versions 1 and 2 of [flagA], upserted in either order into an empty
    database. *)
Lemma UpsertInternal_highest_version_wins_witness :
  db (snd (@UpsertInternal byte_codec 1 default_store features (flagA 2)
             (snd (@UpsertInternal byte_codec 1 default_store features (flagA 1)
                     empty_world))))
  = db (snd (@UpsertInternal byte_codec 1 default_store features (flagA 1)
               (snd (@UpsertInternal byte_codec 1 default_store features (flagA 2)
                       empty_world)))).
Proof.
  refine (proj1 (@UpsertInternal_highest_version_wins byte_codec default_store features
                   (flagA 1) (flagA 2) (bytes_of (flagA 1)) (bytes_of (flagA 2)) 0
                   empty_world eq_refl eq_refl I eq_refl eq_refl eq_refl eq_refl
                   eq_refl eq_refl)).
Defined.

(** [two_collections], listed in two orders, over a stored [flagA]. *)
Lemma InitInternal_order_independent_witness :
  db (snd (@InitInternal byte_codec default_store two_collections (stored_world 7)))
  = db (snd (@InitInternal byte_codec default_store two_collections_reordered
               (stored_world 7))).
Proof.
  apply (@InitInternal_order_independent byte_codec default_store two_collections
           two_collections_reordered (stored_world 7)
           two_collections_faithful two_collections_reordered_faithful
           eq_refl eq_refl).
  - vm_compute. reflexivity.
  - reflexivity.
Defined.
